(** * FingerChooserApp: the game screen's touch registry and selection sequencer

    A shallow embedding of [GameScreen] (the game screen component): the
    touch handlers of its pan responder, the Pick Finger / Reset commands and
    the timers that [selectRandomFinger] starts.

    Modelling conventions.
    - React state ([fingers], [selecting], [winnerIndex], [fingerColors]) and
      the refs are the fields of one record, [World]; a state setter is an
      update of its field, applied in program order.  Every handler runs to
      completion against the committed state.
    - Page coordinates are integers ([Z]); the code only compares, adds and
      copies them.
    - An [Animated.Value] is represented by the number it is constructed
      with; starting an animation or a sound is recorded in [effects], the
      values an animation runs through are not modelled.
    - Angles are kept as rational multiples of [Math.PI].
    - [setInterval] / [setTimeout] are entries of a timer table with absolute
      due times on a discrete clock; [fire] runs the callback that is due
      first.  Timers due at the same instant run in creation order; the
      source leaves that order to the host.
    - [Math.random] is an oracle: its n-th call returns [Math_random n].
    - The pan responder is modelled by its handlers: an event of the step
      relation is one handler invocation, so every invariant over [run] holds
      for the invocations the host really makes. *)

From Stdlib Require Import QArith Qround.
From stdpp Require Import gmap strings list fin_maps pretty.

(** ** Data model *)

Module Touch.
(** A native touch of [evt.nativeEvent.touches]. *)
Record t := mk { identifier : Z; pageX : Z; pageY : Z }.
End Touch.

Module Area.
(** [gameAreaDimensions.current]. *)
Record t := mk { pageX : Z; pageY : Z; width : Z; height : Z; bottom : Z }.
End Area.

Module Dot.
Record t := mk { angle : Q (* in units of Math.PI *); distance : Z; opacity : Q }.
End Dot.

Module Finger.
Record t := mk {
  id : string;
  x : Z;
  y : Z;
  color : Q;
  scale : Q;
  rotation : Q;
  active : bool;
  dots : list Dot.t
}.

(** [{ ...finger, x: px, y: py }] *)
Definition with_xy (finger : t) (px py : Z) : t :=
  mk (id finger) px py (color finger) (scale finger) (rotation finger)
     (active finger) (dots finger).
End Finger.

Inductive Effect :=
| PlayTapSound
| PlayWinnerSound
| SpringScale (fingerId : string) (toValue : Q)
| SpringSequence (fingerId : string) (toValues : list Q)
| SelectionAnimationSetValue (v : Q).

(** The closures handed to [setInterval] / [setTimeout], with the variables
    they capture. *)
Inductive Callback :=
| CycleTick (activeFingers : list Finger.t) (currentIndex : nat)
| Outcome (activeFingers : list Finger.t) (interval : nat)
| BlinkTick (winner : Finger.t) (blinkCount : nat)
| SessionEnd.

Record Timer := mkTimer {
  tid : nat;
  due : nat;
  repeat : option nat;
  callback : Callback
}.

Record World := mkWorld {
  fingers : list Finger.t;
  selecting : bool;
  winnerIndex : option nat;
  fingerColors : gmap string string;
  gameAreaDimensions : Area.t;
  timers : list Timer;
  nextTimerId : nat;
  now : nat;
  randomCalls : nat;
  effects : list Effect
}.

Definition set_fingers (v : list Finger.t) (w : World) : World :=
  mkWorld v (selecting w) (winnerIndex w) (fingerColors w) (gameAreaDimensions w)
          (timers w) (nextTimerId w) (now w) (randomCalls w) (effects w).
Definition set_selecting (v : bool) (w : World) : World :=
  mkWorld (fingers w) v (winnerIndex w) (fingerColors w) (gameAreaDimensions w)
          (timers w) (nextTimerId w) (now w) (randomCalls w) (effects w).
Definition set_winnerIndex (v : option nat) (w : World) : World :=
  mkWorld (fingers w) (selecting w) v (fingerColors w) (gameAreaDimensions w)
          (timers w) (nextTimerId w) (now w) (randomCalls w) (effects w).
Definition set_fingerColors (v : gmap string string) (w : World) : World :=
  mkWorld (fingers w) (selecting w) (winnerIndex w) v (gameAreaDimensions w)
          (timers w) (nextTimerId w) (now w) (randomCalls w) (effects w).
Definition set_gameAreaDimensions (v : Area.t) (w : World) : World :=
  mkWorld (fingers w) (selecting w) (winnerIndex w) (fingerColors w) v
          (timers w) (nextTimerId w) (now w) (randomCalls w) (effects w).
Definition set_timers (v : list Timer) (w : World) : World :=
  mkWorld (fingers w) (selecting w) (winnerIndex w) (fingerColors w) (gameAreaDimensions w)
          v (nextTimerId w) (now w) (randomCalls w) (effects w).
Definition set_now (v : nat) (w : World) : World :=
  mkWorld (fingers w) (selecting w) (winnerIndex w) (fingerColors w) (gameAreaDimensions w)
          (timers w) (nextTimerId w) v (randomCalls w) (effects w).
Definition set_randomCalls (v : nat) (w : World) : World :=
  mkWorld (fingers w) (selecting w) (winnerIndex w) (fingerColors w) (gameAreaDimensions w)
          (timers w) (nextTimerId w) (now w) v (effects w).
Definition perform (e : Effect) (w : World) : World :=
  mkWorld (fingers w) (selecting w) (winnerIndex w) (fingerColors w) (gameAreaDimensions w)
          (timers w) (nextTimerId w) (now w) (randomCalls w) (effects w ++ [e]).

(** The component as first mounted, before the game area is measured. *)
Definition initialWorld : World :=
  mkWorld [] false None ∅ (Area.mk 0 0 0 0 0) [] 0 0 0 [].

(** ** Colours *)

Definition idleColor : string := "#00a2ff".
Definition highlightColor : string := "#ff9500".
Definition winnerColor : string := "#ff2d55".
Definition winnerBlinkColor : string := "#ff0055".

(** ** Timers *)

(** [setInterval(cb, ms)] and [setTimeout(cb, ms)]: the new timer's id is
    returned with the world. *)
Definition setInterval (cb : Callback) (ms : nat) (w : World) : nat * World :=
  let i := nextTimerId w in
  (i, mkWorld (fingers w) (selecting w) (winnerIndex w) (fingerColors w)
              (gameAreaDimensions w)
              (timers w ++ [mkTimer i (now w + ms) (Some ms) cb])
              (S i) (now w) (randomCalls w) (effects w)).

Definition setTimeout (cb : Callback) (ms : nat) (w : World) : nat * World :=
  let i := nextTimerId w in
  (i, mkWorld (fingers w) (selecting w) (winnerIndex w) (fingerColors w)
              (gameAreaDimensions w)
              (timers w ++ [mkTimer i (now w + ms) None cb])
              (S i) (now w) (randomCalls w) (effects w)).

Definition clearInterval (i : nat) (w : World) : World :=
  set_timers (filter (λ t, tid t ≠ i) (timers w)) w.

(** ** Gesture-to-contact mapper *)

(** [generateDots]: the loop [for (i = 0; i < numDots; i++)]. *)
Definition numDots : nat := 8.

Definition generateDot (i : nat) : Dot.t :=
  Dot.mk ((inject_Z (Z.of_nat i) * 2) / inject_Z (Z.of_nat numDots))%Q 95 (1 # 2)%Q.

Definition generateDots : list Dot.t := map generateDot (seq 0 numDots).

Definition isTouchInGameArea (area : Area.t) (pageX pageY : Z) : bool :=
  let areaX := Area.pageX area in
  let areaY := Area.pageY area in
  let buttonAreaTop := (Area.bottom area - 70)%Z in
  (areaX <=? pageX)%Z && (pageX <=? areaX + Area.width area)%Z &&
  (areaY <=? pageY)%Z && (pageY <=? Area.bottom area)%Z &&
  (pageY <? buttonAreaTop)%Z.

(** [gameAreaRef.current.measure(...)] callback. *)
Definition measureGameArea (pageX pageY width height : Z) (w : World) : World :=
  set_gameAreaDimensions (Area.mk pageX pageY width height (pageY + height)%Z) w.

Definition onStartShouldSetPanResponder (touches : list Touch.t) (w : World) : option bool :=
  match touches with
  | [] => None (* touches[0] is undefined: the property access throws *)
  | touch :: _ =>
      let area := gameAreaDimensions w in
      Some ((Area.pageY area <=? Touch.pageY touch)%Z &&
            (Touch.pageY touch <=? Area.bottom area - 80)%Z)
  end.

(** The template literal [`${touch.identifier}`]. *)
Definition fingerIdOf (touch : Touch.t) : string := pretty (Touch.identifier touch).

(** The object returned by the [validTouches.map] callback. *)
Definition newFinger (touch : Touch.t) : Finger.t :=
  Finger.mk (fingerIdOf touch) (Touch.pageX touch) (Touch.pageY touch)
            0%Q 1%Q 0%Q true generateDots.

Definition validTouchesOf (w : World) (touches : list Touch.t) : list Touch.t :=
  filter (λ touch, isTouchInGameArea (gameAreaDimensions w)
                     (Touch.pageX touch) (Touch.pageY touch) = true) touches.

Definition includes (ids : list string) (s : string) : bool :=
  bool_decide (s ∈ ids).

Definition onPanResponderGrant (touches : list Touch.t) (w : World) : World :=
  if selecting w then w
  else
    let validTouches := validTouchesOf w touches in
    let w1 := match validTouches with [] => w | _ => perform PlayTapSound w end in
    (* the map callback: one setFingerColors per valid touch, in order *)
    let w2 := foldl (λ acc touch,
                       set_fingerColors (<[fingerIdOf touch := idleColor]> (fingerColors acc)) acc)
                    w1 validTouches in
    let currentTouches := map newFinger validTouches in
    let touchIds := map Finger.id currentTouches in
    let remainingFingers :=
      filter (λ f, (negb (includes touchIds (Finger.id f)) && Finger.active f) = true)
             (fingers w2) in
    set_fingers (remainingFingers ++ currentTouches) w2.

(** [touches.find(t => `${t.identifier}` === finger.id)] *)
Definition findTouch (touches : list Touch.t) (fid : string) : option Touch.t :=
  List.find (λ t, bool_decide (fingerIdOf t = fid)) touches.

Definition moveFinger (area : Area.t) (touches : list Touch.t) (finger : Finger.t) : Finger.t :=
  match findTouch touches (Finger.id finger) with
  | Some matchingTouch =>
      if isTouchInGameArea area (Touch.pageX matchingTouch) (Touch.pageY matchingTouch)
      then Finger.with_xy finger (Touch.pageX matchingTouch) (Touch.pageY matchingTouch)
      else finger
  | None => finger
  end.

Definition onPanResponderMove (touches : list Touch.t) (w : World) : World :=
  if negb (selecting w)
  then set_fingers (map (moveFinger (gameAreaDimensions w) touches) (fingers w)) w
  else w.

Definition onPanResponderRelease (w : World) : World := w.
Definition onPanResponderTerminate (w : World) : World := w.

(** ** Visual-state derivation *)

Definition getBorderColor (w : World) (fingerId : string) : string :=
  if bool_decide (fingerColors w !! fingerId = Some winnerColor)
     || bool_decide (fingerColors w !! fingerId = Some winnerBlinkColor)
  then "#ffcc00" else "white".

Definition getBorderWidth (w : World) (fingerId : string) : nat :=
  if bool_decide (fingerColors w !! fingerId = Some winnerColor)
     || bool_decide (fingerColors w !! fingerId = Some winnerBlinkColor)
  then 6 else 4.

(** [fingerColors[finger.id] || '#00a2ff'] *)
Definition backgroundColor (w : World) (fingerId : string) : string :=
  match fingerColors w !! fingerId with
  | Some c => if bool_decide (c = EmptyString) then idleColor else c
  | None => idleColor
  end.

(** ** Selection sequencer *)

(** The loop [activeFingers.forEach((finger, index) => ...)] that fills
    [updatedColors]: the entry at [currentIndex] gets [hot], every other one
    the idle colour.  [updateFingerColors] runs it with the highlight colour,
    the outcome callback with the winner colour. *)
Fixpoint forEachColor (hot : string) (currentIndex index : nat)
    (activeFingers : list Finger.t) (updatedColors : gmap string string)
    : gmap string string :=
  match activeFingers with
  | [] => updatedColors
  | finger :: rest =>
      forEachColor hot currentIndex (S index) rest
        (<[Finger.id finger := if (index =? currentIndex)%nat then hot else idleColor]>
           updatedColors)
  end.

(** [setFingerColors(prev => ({ ...prev, ...updatedColors }))] *)
Definition mergeColors (updatedColors : gmap string string) (w : World) : World :=
  set_fingerColors (updatedColors ∪ fingerColors w) w.

Definition updateFingerColors (activeFingers : list Finger.t) (currentIndex : nat)
    (w : World) : World :=
  mergeColors (forEachColor highlightColor currentIndex 0 activeFingers ∅) w.

Definition selectionSpeed : nat := 200.
Definition numberOfCycles : nat := 3.
Definition blinkPeriod : nat := 300.
Definition sessionEndDelay : nat := 2000.

Definition activeOf (fs : list Finger.t) : list Finger.t :=
  filter (λ f, Finger.active f = true) fs.

Definition selectRandomFinger (w : World) : World :=
  let activeFingers := activeOf (fingers w) in
  if (length activeFingers =? 0)%nat || selecting w then w
  else
    let w1 := set_winnerIndex None (set_selecting true w) in
    let w2 := foldl (λ acc finger, perform (SpringScale (Finger.id finger) 1%Q) acc)
                    w1 activeFingers in
    let w3 := perform (SelectionAnimationSetValue 0%Q) w2 in
    let '(interval, w4) := setInterval (CycleTick activeFingers 0) selectionSpeed w3 in
    let selectionTime := length activeFingers * selectionSpeed * numberOfCycles in
    snd (setTimeout (Outcome activeFingers interval) selectionTime w4).

Definition handleRestart (w : World) : World :=
  set_fingerColors ∅ (set_winnerIndex None (set_selecting false (set_fingers [] w))).

(** [Math.floor(r * len)] for the value [r] returned by [Math.random()]. *)
Definition randomIndexOf (r : Q) (len : nat) : nat :=
  Z.to_nat (Qfloor (r * inject_Z (Z.of_nat len))).

(** What a timer callback did, as seen from outside. *)
Inductive Obs :=
| Highlighted (index : nat)
| WinnerChosen (index : nat)
| OutcomeThrew (index : nat)
| Blinked (blinkCount : nat)
| SessionEnded.

(** A closure variable reassigned by its own interval callback. *)
Definition setCallback (i : nat) (cb : Callback) (w : World) : World :=
  set_timers (map (λ t, if (tid t =? i)%nat then mkTimer (tid t) (due t) (repeat t) cb else t)
                  (timers w)) w.

(** Timers due at the same instant run in creation order. *)
Definition earlier (a b : Timer) : bool :=
  (due a <? due b)%nat || ((due a =? due b)%nat && (tid a <=? tid b)%nat).

Fixpoint nextTimer (ts : list Timer) : option Timer :=
  match ts with
  | [] => None
  | t :: rest =>
      match nextTimer rest with
      | None => Some t
      | Some u => Some (if earlier t u then t else u)
      end
  end.

(** A repeating timer is due again one period later; a one-shot timer is
    dropped. *)
Definition rearm (t : Timer) (w : World) : World :=
  match repeat t with
  | Some ms =>
      set_timers (map (λ u, if (tid u =? tid t)%nat
                            then mkTimer (tid u) (due u + ms) (repeat u) (callback u)
                            else u) (timers w)) w
  | None => clearInterval (tid t) w
  end.

Section Sequencer.

(** The n-th call of [Math.random()] returns [Math_random n]. *)
Variable Math_random : nat → Q.

Definition runCallback (self : Timer) (w : World) : Obs * World :=
  match callback self with
  | CycleTick activeFingers currentIndex =>
      let currentIndex' := (currentIndex + 1) mod length activeFingers in
      let w1 := setCallback (tid self) (CycleTick activeFingers currentIndex') w in
      (Highlighted currentIndex', updateFingerColors activeFingers currentIndex' w1)
  | Outcome activeFingers interval =>
      let w1 := clearInterval interval w in
      let r := Math_random (randomCalls w1) in
      let w2 := set_randomCalls (S (randomCalls w1)) w1 in
      let randomIndex := randomIndexOf r (length activeFingers) in
      let w3 := perform PlayWinnerSound (set_winnerIndex (Some randomIndex) w2) in
      match activeFingers !! randomIndex with
      | None => (OutcomeThrew randomIndex, w3) (* winner.scale on undefined *)
      | Some winner =>
          let w4 := perform (SpringSequence (Finger.id winner) [13 # 10; 12 # 10]%Q) w3 in
          let w5 := mergeColors (forEachColor winnerColor randomIndex 0 activeFingers ∅) w4 in
          let '(blinkInterval, w6) := setInterval (BlinkTick winner 0) blinkPeriod w5 in
          (WinnerChosen randomIndex, snd (setTimeout SessionEnd sessionEndDelay w6))
      end
  | BlinkTick winner blinkCount =>
      let blinkCount' := blinkCount + 1 in
      let w1 := setCallback (tid self) (BlinkTick winner blinkCount') w in
      let w2 := set_fingerColors
                  (<[Finger.id winner :=
                       if (blinkCount' mod 2 =? 0)%nat then winnerColor else winnerBlinkColor]>
                     (fingerColors w1)) w1 in
      (Blinked blinkCount',
       if (6 <=? blinkCount')%nat then clearInterval (tid self) w2 else w2)
  | SessionEnd => (SessionEnded, set_selecting false w)
  end.

(** Run the timer that is due first: the clock moves to its due time. *)
Definition fire (w : World) : option (Obs * World) :=
  match nextTimer (timers w) with
  | None => None
  | Some t => Some (runCallback t (rearm t (set_now (due t) w)))
  end.

(** [fires n w]: the next [n] timer callbacks, with what they did. *)
Fixpoint fires (n : nat) (w : World) : option (list Obs * World) :=
  match n with
  | 0 => Some ([], w)
  | S n' =>
      match fire w with
      | None => None
      | Some (o, w') =>
          match fires n' w' with
          | None => None
          | Some (os, w'') => Some (o :: os, w'')
          end
      end
  end.

(** ** Everything that can happen to the screen *)

Inductive Event :=
| TouchStart (touches : list Touch.t)
| TouchMove (touches : list Touch.t)
| TouchEnd
| TouchCancel
| PressPick
| PressReset
| Measure (pageX pageY width height : Z)
| TimerFires
| Elapse (ms : nat).

(** The clock advances while no timer becomes due. *)
Definition elapse (ms : nat) (w : World) : World :=
  if forallb (λ t, (now w + ms <? due t)%nat) (timers w) then set_now (now w + ms) w else w.

Definition handle (e : Event) (w : World) : World :=
  match e with
  | TouchStart touches => onPanResponderGrant touches w
  | TouchMove touches => onPanResponderMove touches w
  | TouchEnd => onPanResponderRelease w
  | TouchCancel => onPanResponderTerminate w
  | PressPick => selectRandomFinger w
  | PressReset => handleRestart w
  | Measure px py wd ht => measureGameArea px py wd ht w
  | TimerFires => match fire w with Some (_, w') => w' | None => w end
  | Elapse ms => elapse ms w
  end.

Definition run (es : list Event) (w : World) : World :=
  foldl (λ acc e, handle e acc) w es.

End Sequencer.

(** ** Notions used in the statements *)

(** The touch lies on the play surface. *)
Definition inBounds (w : World) (touch : Touch.t) : Prop :=
  isTouchInGameArea (gameAreaDimensions w) (Touch.pageX touch) (Touch.pageY touch) = true.

(** The colour map after the [setFingerColors] calls of one start batch. *)
Definition paintIdle (m : gmap string string) (l : list Touch.t) : gmap string string :=
  foldl (λ acc touch, <[fingerIdOf touch := idleColor]> acc) m l.

(** Only the coordinate of a contact can differ after a move. *)
Definition sameButPosition (f g : Finger.t) : Prop :=
  Finger.id g = Finger.id f ∧ Finger.color g = Finger.color f
  ∧ Finger.scale g = Finger.scale f ∧ Finger.rotation g = Finger.rotation f
  ∧ Finger.active g = Finger.active f ∧ Finger.dots g = Finger.dots f.

(** Concrete worlds used in examples. *)
Definition measuredWorld : World := measureGameArea 0 0 400 800 initialWorld.
Definition touchA : Touch.t := Touch.mk 0 100 100.
Definition touchB : Touch.t := Touch.mk 1 200 200.
Definition touchInStrip : Touch.t := Touch.mk 2 100 790.
Definition oneFingerWorld : World := onPanResponderGrant [touchA] measuredWorld.
Definition twoFingerWorld : World := onPanResponderGrant [touchA; touchB] measuredWorld.
Definition oneFingerSession : World := selectRandomFinger oneFingerWorld.
Definition halfRandom : nat → Q := λ _, (1 # 2)%Q.
Definition afterOneFingerOutcome : World :=
  run halfRandom (replicate 4 TimerFires) oneFingerSession.
Definition afterOneFingerSession : World :=
  run halfRandom (replicate 11 TimerFires) oneFingerSession.

(** The registry invariant. *)
Definition allActive (w : World) : Prop :=
  Forall (λ f, Finger.active f = true) (fingers w).

(** ** A session in closed form

    The states a session goes through when Pick Finger is pressed in world
    [w]: [cycling w j] after the j-th tick of the cycling timer,
    [blinking rnd w winner j] after the outcome and j blink ticks, [ended]
    after the last callback.  The lemmas below show that [fire] steps
    through them. *)

(** The snapshot [activeFingers] that Pick Finger captures. *)
Definition snapshotOf (w : World) : list Finger.t := activeOf (fingers w).

Definition selectionTimeOf (w : World) : nat :=
  length (snapshotOf w) * selectionSpeed * numberOfCycles.

Fixpoint cycleColors (w : World) (j : nat) : gmap string string :=
  match j with
  | 0 => fingerColors w
  | S j' =>
      forEachColor highlightColor (S j' mod length (snapshotOf w)) 0 (snapshotOf w) ∅
      ∪ cycleColors w j'
  end.

Definition sessionEffects (w : World) : list Effect :=
  (effects w ++ map (λ f, SpringScale (Finger.id f) 1%Q) (snapshotOf w))
  ++ [SelectionAnimationSetValue 0%Q].

Definition cycleTimer (w : World) (j : nat) : Timer :=
  mkTimer (nextTimerId w) (now w + selectionSpeed * S j) (Some selectionSpeed)
          (CycleTick (snapshotOf w) (j mod length (snapshotOf w))).

Definition outcomeTimer (w : World) : Timer :=
  mkTimer (S (nextTimerId w)) (now w + selectionTimeOf w) None
          (Outcome (snapshotOf w) (nextTimerId w)).

Definition cycling (w : World) (j : nat) : World :=
  mkWorld (fingers w) true None (cycleColors w j) (gameAreaDimensions w)
          [cycleTimer w j; outcomeTimer w]
          (S (S (nextTimerId w))) (now w + selectionSpeed * j) (randomCalls w)
          (sessionEffects w).

(** The index drawn by the outcome callback of the session. *)
Definition drawOf (rnd : nat → Q) (w : World) : nat :=
  randomIndexOf (rnd (randomCalls w)) (length (snapshotOf w)).

Definition wonColors (rnd : nat → Q) (w : World) : gmap string string :=
  forEachColor winnerColor (drawOf rnd w) 0 (snapshotOf w) ∅
  ∪ cycleColors w (length (snapshotOf w) * numberOfCycles).

Definition blinkColorAt (blinkCount : nat) : string :=
  if (blinkCount mod 2 =? 0)%nat then winnerColor else winnerBlinkColor.

Fixpoint blinkColors (rnd : nat → Q) (w : World) (winner : Finger.t) (j : nat)
    : gmap string string :=
  match j with
  | 0 => wonColors rnd w
  | S j' => <[Finger.id winner := blinkColorAt (S j')]> (blinkColors rnd w winner j')
  end.

Definition wonEffects (w : World) (winner : Finger.t) : list Effect :=
  (sessionEffects w ++ [PlayWinnerSound])
  ++ [SpringSequence (Finger.id winner) [13 # 10; 12 # 10]%Q].

(** The instant at which the outcome callback is due. *)
Definition outcomeTime (w : World) : nat := now w + selectionTimeOf w.

Definition blinkTimer (w : World) (winner : Finger.t) (j : nat) : Timer :=
  mkTimer (S (S (nextTimerId w))) (outcomeTime w + blinkPeriod * S j) (Some blinkPeriod)
          (BlinkTick winner j).

Definition endTimer (w : World) : Timer :=
  mkTimer (S (S (S (nextTimerId w)))) (outcomeTime w + sessionEndDelay) None SessionEnd.

Definition blinking (rnd : nat → Q) (w : World) (winner : Finger.t) (j : nat) : World :=
  mkWorld (fingers w) true (Some (drawOf rnd w)) (blinkColors rnd w winner j)
          (gameAreaDimensions w)
          ((if (j <? 6)%nat then [blinkTimer w winner j] else []) ++ [endTimer w])
          (S (S (S (S (nextTimerId w))))) (outcomeTime w + blinkPeriod * j)
          (S (randomCalls w)) (wonEffects w winner).

Definition ended (rnd : nat → Q) (w : World) (winner : Finger.t) : World :=
  mkWorld (fingers w) false (Some (drawOf rnd w)) (blinkColors rnd w winner 6)
          (gameAreaDimensions w) []
          (S (S (S (S (nextTimerId w))))) (outcomeTime w + sessionEndDelay)
          (S (randomCalls w)) (wonEffects w winner).

(** Number of ticks of the cycling phase. *)
Definition cyclesOf (w : World) : nat := length (snapshotOf w) * numberOfCycles.

(** The state before the n-th timer callback of a session (counting from 0). *)
Definition sessionWorld (rnd : nat → Q) (w : World) (winner : Finger.t) (n : nat) : World :=
  if (n <=? cyclesOf w)%nat then cycling w n
  else if (n <=? cyclesOf w + 7)%nat then blinking rnd w winner (n - cyclesOf w - 1)
  else ended rnd w winner.

(** What the n-th timer callback of a session does. *)
Definition sessionObs (rnd : nat → Q) (w : World) (n : nat) : Obs :=
  if (n <? cyclesOf w)%nat then Highlighted (S n mod length (snapshotOf w))
  else if (n =? cyclesOf w)%nat then WinnerChosen (drawOf rnd w)
  else if (n <? cyclesOf w + 7)%nat then Blinked (n - cyclesOf w)
  else SessionEnded.


(** The indices highlighted by the first [n] ticks over a snapshot of size
    [K], and the number of times index [i] occurs in such a list. *)
Definition visits (K n : nat) : list nat := map (λ j, j mod K) (seq 1 n).


(** The touches of one native event carry distinct identifiers. *)
Definition wellFormed (e : Event) : Prop :=
  match e with
  | TouchStart touches | TouchMove touches => NoDup (map Touch.identifier touches)
  | _ => True
  end.

(** The timers that can be pending while no Reset has been pressed: none,
    the two of the cycling phase, the two of the blink phase, or the
    end-of-session timeout alone; whenever one is pending the selecting flag
    is set. *)
Definition sessionShape (w : World) : Prop :=
  match timers w with
  | [] => True
  | [e] => selecting w = true ∧ callback e = SessionEnd ∧ repeat e = None
  | [t; u] =>
      selecting w = true ∧ tid t ≠ tid u ∧ repeat u = None
      ∧ ((∃ fs c ms, callback t = CycleTick fs c ∧ repeat t = Some ms
                     ∧ callback u = Outcome fs (tid t))
         ∨ (∃ f j, callback t = BlinkTick f j ∧ repeat t = Some blinkPeriod
                   ∧ callback u = SessionEnd ∧ j < 6
                   ∧ due t + blinkPeriod * (5 - j) + 200 = due u))
  | _ => False
  end.

(** A session interrupted by Reset, a new contact, a new session. *)
Definition afterResetScenario : World :=
  run halfRandom
      (replicate 4 TimerFires ++ [PressReset; TouchStart [touchA]]
       ++ replicate 6 TimerFires ++ [PressPick; TimerFires])
      oneFingerSession.


(** ** The rest of the screen: gates, controls, rendering, audio, animations *)

(** [onMoveShouldSetPanResponder] *)
Definition onMoveShouldSetPanResponder (touches : list Touch.t) (w : World) : option bool :=
  match touches with
  | [] => None (* touches[0] is undefined: the property access throws *)
  | touch :: _ =>
      Some (isTouchInGameArea (gameAreaDimensions w) (Touch.pageX touch) (Touch.pageY touch))
  end.

(** The [disabled] prop of the Pick Finger button and the condition under
    which it gets [styles.disabledButton]. *)
Definition pickDisabled (w : World) : bool :=
  (length (activeOf (fingers w)) =? 0)%nat || selecting w.

Definition pickStyledDisabled (w : World) : bool :=
  (length (activeOf (fingers w)) =? 0)%nat.

Module View.
(** What the render function emits for one contact: the React key, the
    offset of its container and the style computed for its circle. *)
Record t := mk {
  key : string;
  left : Z;
  top : Z;
  backgroundColor : string;
  borderColor : string;
  borderWidth : nat
}.
End View.





(** The four colours the screen writes into the colour map. *)
Definition palette : list string :=
  [idleColor; highlightColor; winnerColor; winnerBlinkColor].

(** Every colour stored in the map is one of the four. *)
Definition inPalette (m : gmap string string) : Prop :=
  ∀ k c, m !! k = Some c → c ∈ palette.

(** Every contact of the registry has an entry in the colour map. *)
Definition hasEntries (w : World) : Prop :=
  ∀ f, f ∈ fingers w → is_Some (fingerColors w !! Finger.id f).

(** The timer is the cycling interval of some session. *)
Definition isCycleTick (t : Timer) : bool :=
  match callback t with CycleTick _ _ => true | _ => false end.

(** *** Audio *)

Inductive Asset := TapMp3 | WinnerMp3.

(** The two sound refs, the lines written by [console.error] and the sounds
    handed to [unloadAsync]. *)
Record Sounds := mkSounds {
  tapSoundRef : option Asset;
  winSoundRef : option Asset;
  consoleErrors : list string;
  unloaded : list Asset
}.

Definition mountedSounds : Sounds := mkSounds None None [] [].

(** [loadSounds]: the two [Audio.Sound.createAsync] calls in one [try];
    [createAsync a = true] when the promise for asset [a] resolves. *)
Definition loadSounds (createAsync : Asset → bool) (s : Sounds) : Sounds :=
  if createAsync TapMp3 then
    let s1 := mkSounds (Some TapMp3) (winSoundRef s) (consoleErrors s) (unloaded s) in
    if createAsync WinnerMp3
    then mkSounds (tapSoundRef s1) (Some WinnerMp3) (consoleErrors s1) (unloaded s1)
    else mkSounds (tapSoundRef s1) (winSoundRef s1)
                  (consoleErrors s1 ++ ["Failed to load sounds"]) (unloaded s1)
  else mkSounds (tapSoundRef s) (winSoundRef s)
                (consoleErrors s ++ ["Failed to load sounds"]) (unloaded s).

(** [playTapSound] / [playWinnerSound]: the result says whether the sound
    was replayed; [replayAsync a = true] when the replay promise resolves. *)
Definition playTapSound (replayAsync : Asset → bool) (s : Sounds) : bool * Sounds :=
  match tapSoundRef s with
  | Some a =>
      if replayAsync a then (true, s)
      else (false, mkSounds (tapSoundRef s) (winSoundRef s)
                            (consoleErrors s ++ ["Failed to play tap sound"]) (unloaded s))
  | None => (false, s)
  end.

Definition playWinnerSound (replayAsync : Asset → bool) (s : Sounds) : bool * Sounds :=
  match winSoundRef s with
  | Some a =>
      if replayAsync a then (true, s)
      else (false, mkSounds (tapSoundRef s) (winSoundRef s)
                            (consoleErrors s ++ ["Failed to play winner sound"]) (unloaded s))
  | None => (false, s)
  end.

(** The cleanup of the mount effect. *)
Definition unloadSounds (s : Sounds) : Sounds :=
  mkSounds (tapSoundRef s) (winSoundRef s) (consoleErrors s)
           (unloaded s ++ option_list (tapSoundRef s) ++ option_list (winSoundRef s)).

(** *** Animations started when [fingers] changes *)

Inductive Animation :=
| OpacityLoop (fingerId : string) (index : nat) (steps : list (Q * nat))
| RotationLoop (fingerId : string) (toValue : Q) (duration : nat).

(** The effect that pulses the dots: for every active finger and every dot,
    a loop of two timings of [600 + index * 100] each. *)
Definition dotAnimationsOf (finger : Finger.t) : list Animation :=
  if Finger.active finger
  then imap (λ index _, OpacityLoop (Finger.id finger) index
                          [(1%Q, 600 + index * 100); ((2 # 10)%Q, 600 + index * 100)])
            (Finger.dots finger)
  else [].

Definition dotAnimations (fs : list Finger.t) : list Animation :=
  concat (map dotAnimationsOf fs).

(** The effect that spins the contacts. *)
Definition rotationAnimations (fs : list Finger.t) : list Animation :=
  concat (map (λ finger, if Finger.active finger
                         then [RotationLoop (Finger.id finger) 1%Q 5000]
                         else []) fs).

(** The shape the start handler gives a contact; later only the position
    changes. *)
Definition asCreated (f : Finger.t) : Prop :=
  ∃ touch, f = Finger.with_xy (newFinger touch) (Finger.x f) (Finger.y f).

Definition isMeasure (e : Event) : Prop :=
  match e with Measure _ _ _ _ => True | _ => False end.

(** * Properties *)

(** ** Basic facts *)

Lemma World_eta (w : World) :
  w = mkWorld (fingers w) (selecting w) (winnerIndex w) (fingerColors w)
              (gameAreaDimensions w) (timers w) (nextTimerId w) (now w)
              (randomCalls w) (effects w).
Proof. by destruct w. Qed.

Lemma inBounds_iff w t :
  inBounds w t
  ↔ let area := gameAreaDimensions w in
    (Area.pageX area <= Touch.pageX t <= Area.pageX area + Area.width area
     ∧ Area.pageY area <= Touch.pageY t <= Area.bottom area
     ∧ Touch.pageY t < Area.bottom area - 70)%Z.
Proof.
  unfold inBounds, isTouchInGameArea. cbn zeta.
  rewrite !andb_true_iff, !Z.leb_le, Z.ltb_lt. tauto.
Qed.

Lemma elem_of_validTouchesOf w touches t :
  t ∈ validTouchesOf w touches ↔ inBounds w t ∧ t ∈ touches.
Proof. unfold validTouchesOf, inBounds. by rewrite list_elem_of_filter. Qed.

Lemma fingerIdOf_inj t u :
  fingerIdOf t = fingerIdOf u → Touch.identifier t = Touch.identifier u.
Proof. unfold fingerIdOf. intros H. by apply (inj pretty) in H. Qed.

Lemma NoDup_key_eq {A B} (f : A → B) (l : list A) (a b : A) :
  NoDup (map f l) → a ∈ l → b ∈ l → f a = f b → a = b.
Proof.
  induction l as [|c l IH]; simpl; intros Hnd Ha Hb Hab.
  - by apply elem_of_nil in Ha.
  - apply NoDup_cons in Hnd as [Hc Hnd].
    apply elem_of_cons in Ha as [->|Ha]; apply elem_of_cons in Hb as [->|Hb].
    + done.
    + exfalso. apply Hc. rewrite Hab. apply list_elem_of_fmap. eauto.
    + exfalso. apply Hc. rewrite <- Hab. apply list_elem_of_fmap. eauto.
    + by apply IH.
Qed.

(** ** The start handler *)

Lemma grant_color_loop l : ∀ w,
  foldl (λ acc touch,
           set_fingerColors (<[fingerIdOf touch := idleColor]> (fingerColors acc)) acc) w l
  = set_fingerColors (paintIdle (fingerColors w) l) w.
Proof.
  induction l as [|t l IH]; intros w; simpl.
  - by destruct w.
  - rewrite IH. by destruct w.
Qed.

Lemma paintIdle_lookup l : ∀ m k,
  paintIdle m l !! k
  = if bool_decide (k ∈ map fingerIdOf l) then Some idleColor else m !! k.
Proof.
  induction l as [|t l IH]; intros m k.
  - case_bool_decide as Hin; [by apply elem_of_nil in Hin | done].
  - change (paintIdle m (t :: l)) with (paintIdle (<[fingerIdOf t := idleColor]> m) l).
    rewrite IH. change (map fingerIdOf (t :: l)) with (fingerIdOf t :: map fingerIdOf l).
    destruct (decide (k ∈ map fingerIdOf l)) as [Hin|Hout].
    + rewrite !bool_decide_eq_true_2; [done | by right | done].
    + rewrite (bool_decide_eq_false_2 _ Hout).
      destruct (decide (fingerIdOf t = k)) as [<-|Hne].
      * rewrite lookup_insert_eq, bool_decide_eq_true_2; [done | by left].
      * rewrite lookup_insert_ne, bool_decide_eq_false_2; [done | | done].
        by intros [?|?]%elem_of_cons.
Qed.

(** The registry and the colour map written by the start handler when no
    session is running. *)
Lemma grant_fields w touches :
  selecting w = false →
  let valid := validTouchesOf w touches in
  fingers (onPanResponderGrant touches w)
    = (filter (λ f, (negb (includes (map Finger.id (map newFinger valid)) (Finger.id f))
                    && Finger.active f) = true) (fingers w)
      ++ map newFinger valid)%list
  ∧ fingerColors (onPanResponderGrant touches w) = paintIdle (fingerColors w) valid
  ∧ selecting (onPanResponderGrant touches w) = false
  ∧ winnerIndex (onPanResponderGrant touches w) = winnerIndex w
  ∧ timers (onPanResponderGrant touches w) = timers w.
Proof.
  intros Hsel valid. unfold onPanResponderGrant. rewrite Hsel.
  fold valid. rewrite grant_color_loop.
  destruct valid; simpl; by rewrite ?Hsel.
Qed.

Lemma newFinger_ids l : map Finger.id (map newFinger l) = map fingerIdOf l.
Proof. induction l; simpl; congruence. Qed.


Lemma grant_survivor w touches f :
  f ∈ filter (λ f, (negb (includes (map Finger.id (map newFinger (validTouchesOf w touches)))
                             (Finger.id f)) && Finger.active f) = true) (fingers w)
  ↔ f ∈ fingers w ∧ Finger.active f = true
    ∧ ∀ t, t ∈ touches → inBounds w t → fingerIdOf t ≠ Finger.id f.
Proof.
  rewrite list_elem_of_filter, andb_true_iff, negb_true_iff, newFinger_ids.
  unfold includes. rewrite bool_decide_eq_false, list_elem_of_fmap.
  split.
  - intros [[Hno Hact] Hin]. repeat split; try done.
    intros t Ht Hb Heq. apply Hno. exists t. split; [done|].
    by apply elem_of_validTouchesOf.
  - intros (Hin & Hact & Hno). repeat split; try done.
    intros (t & Heq & [Hb Ht]%elem_of_validTouchesOf). by apply (Hno t).
Qed.

Lemma grant_elem_of w touches f :
  selecting w = false →
  f ∈ fingers (onPanResponderGrant touches w)
  ↔ (f ∈ fingers w ∧ Finger.active f = true
     ∧ ∀ t, t ∈ touches → inBounds w t → fingerIdOf t ≠ Finger.id f)
    ∨ ∃ t, t ∈ touches ∧ inBounds w t ∧ f = newFinger t.
Proof.
  intros Hsel. destruct (grant_fields w touches Hsel) as (-> & _).
  rewrite elem_of_app, grant_survivor, list_elem_of_fmap.
  apply or_iff_compat_l. split.
  - intros (t & -> & [Hb Ht]%elem_of_validTouchesOf). eauto.
  - intros (t & Ht & Hb & ->). exists t. split; [done|].
    by apply elem_of_validTouchesOf.
Qed.

(** Identifiers stay unique in the registry as long as the touches of one
    event carry distinct identifiers. *)
Lemma grant_keys_unique w touches :
  NoDup (map Touch.identifier touches) →
  NoDup (map Finger.id (fingers w)) →
  NoDup (map Finger.id (fingers (onPanResponderGrant touches w))).
Proof.
  intros Ht Hw. destruct (selecting w) eqn:Hsel.
  { unfold onPanResponderGrant. by rewrite Hsel. }
  destruct (grant_fields w touches Hsel) as (-> & _).
  rewrite map_app. apply NoDup_app. split; [|split].
  - apply (NoDup_fmap_2_strong Finger.id); [|by apply NoDup_filter, (NoDup_fmap_1 Finger.id)].
    intros f g [Hf _]%grant_survivor [Hg _]%grant_survivor Heq.
    by apply (NoDup_key_eq Finger.id (fingers w)).
  - intros k (f & -> & Hf)%list_elem_of_fmap (g & Hk & Hg)%list_elem_of_fmap.
    apply grant_survivor in Hf as (_ & _ & Hno).
    apply list_elem_of_fmap in Hg as (t & -> & [Hb Hin]%elem_of_validTouchesOf).
    by apply (Hno t).
  - rewrite newFinger_ids. unfold validTouchesOf.
    assert (Hids : NoDup (map fingerIdOf touches)).
    { apply (NoDup_fmap_2_strong fingerIdOf); [|by apply (NoDup_fmap_1 Touch.identifier)].
      intros t u Hin Hin' Heq%fingerIdOf_inj.
      by apply (NoDup_key_eq Touch.identifier touches). }
    clear Ht. induction touches as [|t l IH]; [constructor|].
    apply NoDup_cons in Hids as [Hnotin Hids].
    rewrite filter_cons. case_decide; [|by apply IH].
    change (NoDup (fingerIdOf t :: map fingerIdOf (filter
      (λ touch, isTouchInGameArea (gameAreaDimensions w) (Touch.pageX touch)
                  (Touch.pageY touch) = true) l))).
    apply NoDup_cons. split; [|by apply IH].
    intros (u & Heq & [_ Hu]%list_elem_of_filter)%list_elem_of_fmap.
    apply Hnotin. apply list_elem_of_fmap. eauto.
Qed.

(** ** The move handler *)

Lemma findTouch_Some touches fid t :
  findTouch touches fid = Some t → t ∈ touches ∧ fingerIdOf t = fid.
Proof.
  unfold findTouch. intros [Hin Hb]%find_some.
  split; [by apply list_elem_of_In | by apply bool_decide_eq_true in Hb].
Qed.

Lemma findTouch_None touches fid :
  findTouch touches fid = None → ∀ t, t ∈ touches → fingerIdOf t ≠ fid.
Proof.
  unfold findTouch. intros Hnone t Hin%list_elem_of_In.
  apply (find_none _ _ Hnone) in Hin. by apply bool_decide_eq_false in Hin.
Qed.

Lemma findTouch_unique touches fid t :
  NoDup (map Touch.identifier touches) → t ∈ touches → fingerIdOf t = fid →
  findTouch touches fid = Some t.
Proof.
  intros Hnd Hin Hid. destruct (findTouch touches fid) as [u|] eqn:Hfind.
  - apply findTouch_Some in Hfind as [Hu Huid]. f_equal.
    apply (NoDup_key_eq Touch.identifier touches); try done.
    apply fingerIdOf_inj. congruence.
  - exfalso. by apply (findTouch_None _ _ Hfind t).
Qed.

Lemma moveFinger_sameButPosition area touches f :
  sameButPosition f (moveFinger area touches f).
Proof.
  unfold moveFinger. destruct (findTouch _ _) as [t|]; [|by repeat split].
  destruct (isTouchInGameArea _ _ _); by repeat split.
Qed.

(** The gate that lets a gesture start reserves 80 units at the bottom, the
    bounds test 70: a first touch in between is in bounds and yet does not
    start the responder. *)
Remark start_gate_narrower_than_bounds :
  inBounds measuredWorld (Touch.mk 0 100 725)
  ∧ onStartShouldSetPanResponder [Touch.mk 0 100 725] measuredWorld = Some false.
Proof. by vm_compute. Qed.




(** C10, as stated, fails: an in-bounds touch-start that arrives while a
    session is still running (here: after the winner is chosen, before the
    selecting flag is cleared) writes nothing, so the former winner keeps its
    winner colour and border. *)
Lemma grant_does_not_always_paint_idle :
  selecting afterOneFingerOutcome = true
  ∧ inBounds afterOneFingerOutcome touchA
  ∧ fingerColors afterOneFingerOutcome !! fingerIdOf touchA = Some winnerColor
  ∧ fingerColors (onPanResponderGrant [touchA] afterOneFingerOutcome) !! fingerIdOf touchA
    = Some winnerColor
  ∧ getBorderColor (onPanResponderGrant [touchA] afterOneFingerOutcome) (fingerIdOf touchA)
    = "#ffcc00".
Proof. by vm_compute. Qed.

Lemma border_of_idle w k :
  fingerColors w !! k = Some idleColor →
  getBorderColor w k = "white" ∧ getBorderWidth w k = 4.
Proof.
  intros H. unfold getBorderColor, getBorderWidth. rewrite H.
  rewrite !bool_decide_eq_false_2; [done | by intros [=] | by intros [=]].
Qed.

(** C10 (amended): when no selection session is in progress, an in-bounds
    touch-start writes the idle colour under the new contact's identifier,
    overwriting any previous entry, so a former winner registered again is
    rendered idle, with the default border; entries of other identifiers are
    untouched; while a session is in progress the colour map is left as it
    is. *)
Theorem grant_paints_idle (w : World) (touches : list Touch.t) :
  (selecting w = true →
   fingerColors (onPanResponderGrant touches w) = fingerColors w)
  ∧ (selecting w = false →
     let w' := onPanResponderGrant touches w in
     (∀ t, t ∈ touches → inBounds w t →
        fingerColors w' !! fingerIdOf t = Some idleColor
        ∧ getBorderColor w' (fingerIdOf t) = "white"
        ∧ getBorderWidth w' (fingerIdOf t) = 4)
     ∧ (∀ k, (∀ t, t ∈ touches → inBounds w t → fingerIdOf t ≠ k) →
             fingerColors w' !! k = fingerColors w !! k)).
Proof.
  split; [intros Hsel; unfold onPanResponderGrant; by rewrite Hsel|].
  intros Hsel w'. unfold w'.
  destruct (grant_fields w touches Hsel) as (_ & Hcol & _). split.
  - intros t Hin Hb.
    assert (Hidle : fingerColors (onPanResponderGrant touches w) !! fingerIdOf t
                    = Some idleColor).
    { rewrite Hcol, paintIdle_lookup, bool_decide_eq_true_2; [done|].
      apply list_elem_of_fmap. exists t. split; [done|].
      by apply elem_of_validTouchesOf. }
    split; [done|]. by apply border_of_idle.
  - intros k Hno. rewrite Hcol, paintIdle_lookup, bool_decide_eq_false_2; [done|].
    intros (t & -> & [Hb Hin]%elem_of_validTouchesOf)%list_elem_of_fmap.
    by apply (Hno t).
Qed.

Lemma grant_paints_idle_witness :
  selecting afterOneFingerSession = false
  ∧ inBounds afterOneFingerSession touchA
  ∧ getBorderColor afterOneFingerSession (fingerIdOf touchA) = "#ffcc00"
  ∧ getBorderColor (onPanResponderGrant [touchA] afterOneFingerSession)
                   (fingerIdOf touchA) = "white".
Proof.
  assert (Hsel : selecting afterOneFingerSession = false) by (by vm_compute).
  assert (Hb : inBounds afterOneFingerSession touchA) by (by vm_compute).
  split; [exact Hsel|]. split; [exact Hb|]. split; [by vm_compute|].
  destruct (grant_paints_idle afterOneFingerSession [touchA]) as [_ Hgrant].
  destruct (Hgrant Hsel) as [Hidle _].
  apply (Hidle touchA); [by left | exact Hb].
Defined.

(** C8: with no session active a move updates the coordinate of every
    contact whose identifier matches an in-bounds touch and changes no other
    field of any contact; a matching out-of-bounds touch, or no matching
    touch, leaves the contact as it was; while a session is active a move
    changes nothing. *)
Theorem move_updates_only_positions (w : World) (touches : list Touch.t) :
  NoDup (map Touch.identifier touches) →
  (selecting w = true → onPanResponderMove touches w = w)
  ∧ (selecting w = false →
     let w' := onPanResponderMove touches w in
     w' = set_fingers (fingers w') w
     ∧ length (fingers w') = length (fingers w)
     ∧ ∀ i f, fingers w !! i = Some f →
         ∃ f', fingers w' !! i = Some f'
           ∧ sameButPosition f f'
           ∧ (∀ t, t ∈ touches → fingerIdOf t = Finger.id f →
                (inBounds w t →
                   Finger.x f' = Touch.pageX t ∧ Finger.y f' = Touch.pageY t)
                ∧ (¬ inBounds w t → f' = f))
           ∧ ((∀ t, t ∈ touches → fingerIdOf t ≠ Finger.id f) → f' = f)).
Proof.
  intros Hnd. unfold onPanResponderMove. split; intros Hsel; rewrite Hsel; simpl.
  { done. }
  split; [done|]. split; [by rewrite length_map|].
  intros i f Hi. exists (moveFinger (gameAreaDimensions w) touches f).
  split; [by rewrite list_lookup_fmap, Hi|].
  split; [apply moveFinger_sameButPosition|]. split.
  - intros t Hin Hid. unfold moveFinger.
    rewrite (findTouch_unique touches (Finger.id f) t Hnd Hin Hid).
    unfold inBounds. destruct (isTouchInGameArea _ _ _); split; done.
  - intros Hno. unfold moveFinger.
    destruct (findTouch touches (Finger.id f)) as [t|] eqn:Hfind; [|done].
    apply findTouch_Some in Hfind as [Hin Hid]. by destruct (Hno t Hin).
Qed.

Lemma move_updates_only_positions_witness :
  NoDup (map Touch.identifier [Touch.mk 0 150 160; Touch.mk 1 210 795])
  ∧ fingers (onPanResponderMove [Touch.mk 0 150 160; Touch.mk 1 210 795] twoFingerWorld)
    = [Finger.with_xy (newFinger touchA) 150 160; newFinger touchB].
Proof.
  assert (Hnd : NoDup (map Touch.identifier [Touch.mk 0 150 160; Touch.mk 1 210 795])).
  { apply (bool_decide_unpack _). vm_compute. exact I. }
  split; [exact Hnd|].
  destruct (move_updates_only_positions twoFingerWorld _ Hnd) as [_ Hmove].
  destruct (Hmove eq_refl) as (_ & _ & _). reflexivity.
Defined.

(** Reset does not cancel the timers of a session in flight. *)
Remark reset_leaves_timers_running (w : World) : timers (handleRestart w) = timers w.
Proof. reflexivity. Qed.

(** C5: Reset, in any state, empties the registry and the colour map and
    clears the winner index and the selecting flag; Pick Finger is enabled
    again: once a contact is registered it starts a session. *)
Theorem reset_clears_everything (w : World) :
  let w' := handleRestart w in
  fingers w' = [] ∧ fingerColors w' = ∅ ∧ winnerIndex w' = None ∧ selecting w' = false
  ∧ ∀ touches, let v := onPanResponderGrant touches w' in
      validTouchesOf w' touches ≠ [] →
      selecting v = false ∧ activeOf (fingers v) ≠ []
      ∧ selecting (selectRandomFinger v) = true.
Proof.
  intros w'. do 4 (split; [done|]). intros touches v Hvalid.
  destruct (grant_fields w' touches eq_refl) as (Hf & _ & Hs & _).
  fold v in Hf, Hs.
  assert (Hact : activeOf (fingers v) ≠ []).
  { unfold activeOf. rewrite Hf. simpl.
    destruct (validTouchesOf w' touches) as [|t l]; [done|]. simpl.
    by rewrite filter_cons_True. }
  split; [done|]. split; [done|].
  unfold selectRandomFinger. rewrite Hs.
  destruct (activeOf (fingers v)) as [|f l] eqn:Hactive; [done|].
  simpl. unfold setInterval, setTimeout. simpl.
  match goal with |- selecting (foldl ?g ?a ?l) = _ =>
    assert (Hfold : ∀ l' a', selecting a' = true → selecting (foldl g a' l') = true)
  end.
  { induction l' as [|x l' IH]; intros a' Ha; simpl; [done|]. by apply IH. }
  by apply Hfold.
Qed.

Lemma reset_clears_everything_witness :
  selecting oneFingerSession = true
  ∧ validTouchesOf (handleRestart oneFingerSession) [touchB] ≠ []
  ∧ selecting (selectRandomFinger
                 (onPanResponderGrant [touchB] (handleRestart oneFingerSession))) = true.
Proof.
  assert (Hvalid : validTouchesOf (handleRestart oneFingerSession) [touchB] ≠ [])
    by (by vm_compute).
  split; [reflexivity|]. split; [exact Hvalid|].
  destruct (reset_clears_everything oneFingerSession) as (_ & _ & _ & _ & Hpick).
  by destruct (Hpick [touchB] Hvalid) as (_ & _ & ?).
Defined.

(** ** The registry invariant *)

Lemma activeOf_allActive w : allActive w → activeOf (fingers w) = fingers w.
Proof.
  unfold allActive, activeOf. induction 1 as [|f l Hf Hl IH]; [done|].
  rewrite filter_cons_True by done. by f_equal.
Qed.

Lemma grant_allActive touches w :
  allActive (onPanResponderGrant touches w) ∨ (selecting w = true).
Proof.
  destruct (selecting w) eqn:Hsel; [by right | left].
  unfold allActive. destruct (grant_fields w touches Hsel) as (-> & _).
  apply Forall_app. split.
  - apply Forall_forall. intros f [Hf _]%list_elem_of_filter.
    by apply andb_true_iff in Hf as [_ Hf].
  - apply Forall_forall. by intros f (t & -> & _)%list_elem_of_fmap.
Qed.

Lemma move_allActive touches w : allActive w → allActive (onPanResponderMove touches w).
Proof.
  unfold allActive, onPanResponderMove. intros Hall.
  destruct (selecting w); simpl; [done|].
  rewrite Forall_fmap. eapply Forall_impl; [exact Hall|].
  intros f Hf. simpl.
  by destruct (moveFinger_sameButPosition (gameAreaDimensions w) touches f)
    as (_ & _ & _ & _ & -> & _).
Qed.

Lemma foldl_perform_fields {A} (g : A → Effect) (l : list A) : ∀ w,
  foldl (λ acc a, perform (g a) acc) w l
  = mkWorld (fingers w) (selecting w) (winnerIndex w) (fingerColors w)
            (gameAreaDimensions w) (timers w) (nextTimerId w) (now w)
            (randomCalls w) (effects w ++ map g l).
Proof.
  induction l as [|a l IH]; intros w; simpl.
  - rewrite app_nil_r. apply World_eta.
  - rewrite IH. simpl. by rewrite <- app_assoc.
Qed.

Lemma select_fingers w : fingers (selectRandomFinger w) = fingers w.
Proof.
  unfold selectRandomFinger.
  destruct ((length (activeOf (fingers w)) =? 0)%nat || selecting w); [done|].
  simpl. by rewrite foldl_perform_fields.
Qed.

Lemma runCallback_fingers rnd t w : fingers (snd (runCallback rnd t w)) = fingers w.
Proof.
  unfold runCallback. destruct (callback t) as [fs cur|fs i|winner n|]; simpl; try done.
  - by case_match.
  - by case_match.
Qed.

Lemma fire_fingers rnd w o w' : fire rnd w = Some (o, w') → fingers w' = fingers w.
Proof.
  unfold fire. destruct (nextTimer (timers w)) as [t|]; [|done].
  intros [= Hrun].
  assert (Hw' : w' = snd (runCallback rnd t (rearm t (set_now (due t) w))))
    by (by rewrite Hrun).
  rewrite Hw', runCallback_fingers. unfold rearm. by destruct (repeat t).
Qed.

Lemma handle_allActive rnd e w : allActive w → allActive (handle rnd e w).
Proof.
  intros Hall. destruct e as [touches|touches| | | | |px py wd ht| |ms]; simpl; try done.
  - destruct (grant_allActive touches w) as [?|Hsel]; [done|].
    unfold onPanResponderGrant. by rewrite Hsel.
  - by apply move_allActive.
  - unfold allActive. by rewrite select_fingers.
  - constructor.
  - destruct (fire rnd w) as [[o w']|] eqn:Hfire; [|done].
    unfold allActive. by rewrite (fire_fingers rnd w o w' Hfire).
  - unfold elapse. by destruct (forallb _ _).
Qed.

(** C9: in every state reachable from the mounted screen, every contact of
    the registry is active, so filtering the registry by the active flag
    yields the whole registry; a created contact is active, the start handler
    keeps no inactive entry, the move handler and the timers never change an
    active flag, and Reset empties the registry. *)
Theorem registry_contacts_always_active (Math_random : nat → Q) (es : list Event) :
  allActive (run Math_random es initialWorld)
  ∧ activeOf (fingers (run Math_random es initialWorld))
    = fingers (run Math_random es initialWorld)
  ∧ (∀ t, Finger.active (newFinger t) = true)
  ∧ (∀ w touches, selecting w = false → allActive (onPanResponderGrant touches w))
  ∧ (∀ w touches, map Finger.active (fingers (onPanResponderMove touches w))
                  = map Finger.active (fingers w))
  ∧ (∀ w o w', fire Math_random w = Some (o, w') → fingers w' = fingers w)
  ∧ (∀ w, fingers (selectRandomFinger w) = fingers w)
  ∧ (∀ w, fingers (handleRestart w) = []).
Proof.
  assert (Hinv : ∀ es w, allActive w → allActive (run Math_random es w)).
  { clear es. induction es as [|e es IH]; intros w Hw; simpl; [done|].
    apply IH. by apply handle_allActive. }
  assert (H0 : allActive (run Math_random es initialWorld)) by (apply Hinv; constructor).
  split; [done|]. split; [by apply activeOf_allActive|]. split; [done|].
  split; [|split; [|split; [|split]]].
  - intros w touches Hsel. destruct (grant_allActive touches w); [done | congruence].
  - intros w touches. unfold onPanResponderMove. destruct (selecting w); simpl; [done|].
    rewrite <- list_fmap_compose. apply list_fmap_ext. intros i f _. simpl.
    by destruct (moveFinger_sameButPosition (gameAreaDimensions w) touches f)
      as (_ & _ & _ & _ & -> & _).
  - apply fire_fingers.
  - apply select_fingers.
  - done.
Qed.

Lemma move_ids touches w :
  map Finger.id (fingers (onPanResponderMove touches w)) = map Finger.id (fingers w).
Proof.
  unfold onPanResponderMove. destruct (selecting w); simpl; [done|].
  rewrite map_map. apply map_ext. intros f.
  by destruct (moveFinger_sameButPosition (gameAreaDimensions w) touches f) as (-> & _).
Qed.

Lemma handle_keys_unique rnd e w :
  wellFormed e → NoDup (map Finger.id (fingers w)) →
  NoDup (map Finger.id (fingers (handle rnd e w))).
Proof.
  intros He Hw. destruct e as [touches|touches| | | | |px py wd ht| |ms]; simpl; try done.
  - by apply grant_keys_unique.
  - by rewrite move_ids.
  - by rewrite select_fingers.
  - constructor.
  - destruct (fire rnd w) as [[o w']|] eqn:Hfire; [|done].
    by rewrite (fire_fingers rnd w o w' Hfire).
  - unfold elapse. by destruct (forallb _ _).
Qed.

(** Contacts of the registry, hence of every snapshot, have distinct
    identifiers as long as the touches of each event do. *)
Lemma snapshot_keys_unique rnd es :
  Forall wellFormed es →
  NoDup (map Finger.id (snapshotOf (run rnd es initialWorld))).
Proof.
  intros Hes.
  assert (Hinv : ∀ es w, Forall wellFormed es → NoDup (map Finger.id (fingers w)) →
                         NoDup (map Finger.id (fingers (run rnd es w)))).
  { clear. induction es as [|e es IH]; intros w Hes Hw; [done|].
    apply Forall_cons in Hes as [He Hes].
    change (NoDup (map Finger.id (fingers (run rnd es (handle rnd e w))))).
    apply IH; [done|]. by apply handle_keys_unique. }
  eapply sublist_NoDup; [apply (Hinv es initialWorld Hes); constructor|].
  apply fmap_sublist. unfold snapshotOf, activeOf. apply sublist_filter.
Qed.

(** ** The steps of a session *)

Lemma select_cycling w :
  timers w = [] → selecting w = false → snapshotOf w ≠ [] →
  selectRandomFinger w = cycling w 0.
Proof.
  intros Ht Hs Hk. unfold selectRandomFinger. fold (snapshotOf w). rewrite Hs.
  destruct (snapshotOf w) as [|f l] eqn:Hsnap; [done|].
  cbn [length Nat.eqb orb]. rewrite foldl_perform_fields.
  unfold cycling, cycleTimer, outcomeTimer, sessionEffects, selectionTimeOf,
         setInterval, setTimeout.
  rewrite Hsnap.
  cbn [fst snd fingers selecting winnerIndex fingerColors gameAreaDimensions timers
       nextTimerId now randomCalls effects set_selecting set_winnerIndex perform
       cycleColors length].
  rewrite Ht. cbn [app].
  f_equal; [|lia].
  rewrite Nat.mul_1_r. rewrite Nat.Div0.mod_0_l. done.
Qed.

Lemma earlier_true a b : due a ≤ due b → tid a ≤ tid b → earlier a b = true.
Proof.
  intros Hd Ht. unfold earlier.
  destruct (Nat.ltb_spec (due a) (due b)) as [|Hge]; [done|].
  simpl. apply andb_true_iff. split; [apply Nat.eqb_eq; lia | by apply Nat.leb_le].
Qed.

Lemma earlier_false a b : due b < due a → earlier a b = false.
Proof.
  intros Hd. unfold earlier.
  destruct (Nat.ltb_spec (due a) (due b)) as [|Hge]; [lia|].
  destruct (Nat.eqb_spec (due a) (due b)); [lia | done].
Qed.

Lemma succ_eqb_false a : (S a =? a)%nat = false.
Proof. apply Nat.eqb_neq. lia. Qed.

Ltac world_simpl :=
  repeat (progress (
    cbn [fingers selecting winnerIndex fingerColors gameAreaDimensions timers
         nextTimerId now randomCalls effects tid due repeat callback
         set_fingers set_selecting set_winnerIndex set_fingerColors
         set_gameAreaDimensions set_timers set_now set_randomCalls perform
         map app fst snd];
    rewrite ?Nat.eqb_refl, ?succ_eqb_false)).

Lemma fire_cycling rnd w j :
  snapshotOf w ≠ [] →
  j < length (snapshotOf w) * numberOfCycles →
  fire rnd (cycling w j)
  = Some (Highlighted (S j mod length (snapshotOf w)), cycling w (S j)).
Proof.
  intros Hk Hj. unfold fire, cycling, cycleTimer, outcomeTimer. cbn [timers nextTimer].
  rewrite earlier_true; cycle 1.
  { unfold selectionTimeOf, selectionSpeed, numberOfCycles in *. cbn [due]. lia. }
  { cbn [tid]. lia. }
  unfold runCallback, rearm, setCallback, updateFingerColors, mergeColors.
  world_simpl.
  rewrite Nat.Div0.add_mod_idemp_l. replace (j + 1) with (S j) by lia.
  cbn [cycleColors].
  by replace (now w + selectionSpeed * S j + selectionSpeed)
    with (now w + selectionSpeed * S (S j)) by (unfold selectionSpeed; lia).
Qed.

Ltac timers_filter :=
  repeat first
    [ rewrite filter_nil
    | rewrite filter_cons_True by (cbn [tid]; lia)
    | rewrite filter_cons_False by (cbn [tid]; lia) ].

Lemma fire_outcome rnd w winner :
  snapshotOf w ≠ [] →
  snapshotOf w !! drawOf rnd w = Some winner →
  fire rnd (cycling w (length (snapshotOf w) * numberOfCycles))
  = Some (WinnerChosen (drawOf rnd w), blinking rnd w winner 0).
Proof.
  intros Hk Hwin. unfold fire, cycling, cycleTimer, outcomeTimer. cbn [timers nextTimer].
  rewrite earlier_false; cycle 1.
  { unfold selectionTimeOf, selectionSpeed, numberOfCycles in *. cbn [due]. lia. }
  unfold runCallback, rearm, clearInterval.
  world_simpl.
  timers_filter.
  fold (drawOf rnd w). rewrite Hwin.
  unfold mergeColors, setInterval, setTimeout. world_simpl.
  unfold blinking, blinkTimer, endTimer, wonEffects, outcomeTime, wonColors.
  cbn [blinkColors Nat.ltb Nat.leb app].
  by rewrite Nat.mul_1_r, Nat.mul_0_r, Nat.add_0_r.
Qed.

Lemma fire_blinking rnd w winner j :
  j < 6 →
  fire rnd (blinking rnd w winner j)
  = Some (Blinked (S j), blinking rnd w winner (S j)).
Proof.
  intros Hj. unfold fire, blinking, blinkTimer, endTimer.
  rewrite (proj2 (Nat.ltb_lt j 6) Hj). cbn [app timers nextTimer].
  rewrite earlier_true; cycle 1.
  { unfold blinkPeriod, sessionEndDelay. cbn [due]. lia. }
  { cbn [tid]. lia. }
  unfold runCallback, rearm, setCallback. world_simpl.
  replace (j + 1) with (S j) by lia. fold (blinkColorAt (S j)).
  replace (outcomeTime w + blinkPeriod * S j + blinkPeriod)
    with (outcomeTime w + blinkPeriod * S (S j)) by (unfold blinkPeriod; lia).
  cbn [blinkColors].
  destruct (Nat.leb_spec 6 (S j)) as [Hlast|Hmore].
  - rewrite (proj2 (Nat.ltb_ge (S j) 6) Hlast).
    unfold clearInterval. world_simpl. timers_filter. done.
  - by rewrite (proj2 (Nat.ltb_lt (S j) 6) Hmore).
Qed.

Lemma fire_end rnd w winner :
  fire rnd (blinking rnd w winner 6) = Some (SessionEnded, ended rnd w winner).
Proof.
  unfold fire, blinking, endTimer. cbn [Nat.ltb Nat.leb app timers nextTimer].
  unfold runCallback, rearm, clearInterval. world_simpl. timers_filter. done.
Qed.

(** ** The whole session, callback by callback *)

Ltac nat_cases :=
  repeat match goal with
  | |- context [(?a <=? ?b)%nat] => destruct (Nat.leb_spec a b)
  | |- context [(?a <? ?b)%nat] => destruct (Nat.ltb_spec a b)
  | |- context [(?a =? ?b)%nat] => destruct (Nat.eqb_spec a b)
  end; try lia.

Lemma fire_session rnd w winner n :
  snapshotOf w ≠ [] →
  snapshotOf w !! drawOf rnd w = Some winner →
  n < cyclesOf w + 8 →
  fire rnd (sessionWorld rnd w winner n)
  = Some (sessionObs rnd w n, sessionWorld rnd w winner (S n)).
Proof.
  intros Hk Hwin Hn. unfold sessionWorld, sessionObs.
  destruct (Nat.lt_trichotomy n (cyclesOf w)) as [Hlt|[->|Hgt]].
  - nat_cases. by apply fire_cycling.
  - nat_cases. replace (S (cyclesOf w) - cyclesOf w - 1) with 0 by lia.
    by apply fire_outcome.
  - destruct (decide (n = cyclesOf w + 7)) as [->|Hne].
    + nat_cases. replace (cyclesOf w + 7 - cyclesOf w - 1) with 6 by lia.
      apply fire_end.
    + assert (∃ j, n = cyclesOf w + 1 + j ∧ j < 6) as (j & -> & Hj)
        by (exists (n - cyclesOf w - 1); lia).
      nat_cases.
      replace (S (cyclesOf w + 1 + j) - cyclesOf w - 1) with (S j) by lia.
      replace (cyclesOf w + 1 + j - cyclesOf w - 1) with j by lia.
      replace (cyclesOf w + 1 + j - cyclesOf w) with (S j) by lia.
      by apply fire_blinking.
Qed.

Lemma fires_session rnd w winner m : ∀ n,
  snapshotOf w ≠ [] →
  snapshotOf w !! drawOf rnd w = Some winner →
  n + m ≤ cyclesOf w + 8 →
  fires rnd m (sessionWorld rnd w winner n)
  = Some (map (sessionObs rnd w) (seq n m), sessionWorld rnd w winner (n + m)).
Proof.
  induction m as [|m IH]; intros n Hk Hwin Hn.
  - simpl. by rewrite Nat.add_0_r.
  - cbn [fires seq map]. rewrite fire_session by (done || lia).
    rewrite IH by (done || lia). do 3 f_equal. lia.
Qed.


(** ** Colours written by the two recolouring loops *)

Lemma forEachColor_other hot cur fs : ∀ index acc k,
  k ∉ map Finger.id fs → forEachColor hot cur index fs acc !! k = acc !! k.
Proof.
  induction fs as [|f fs IH]; intros index acc k Hk; simpl; [done|].
  rewrite IH by (intros ?; apply Hk; by right).
  apply lookup_insert_ne. intros Heq. apply Hk. rewrite <- Heq. by left.
Qed.

Lemma forEachColor_lookup hot cur fs : ∀ index acc i f,
  NoDup (map Finger.id fs) → fs !! i = Some f →
  forEachColor hot cur index fs acc !! Finger.id f
  = Some (if (index + i =? cur)%nat then hot else idleColor).
Proof.
  induction fs as [|g fs IH]; intros index acc i f Hnd Hi; [done|].
  apply NoDup_cons in Hnd as [Hg Hnd]. destruct i as [|i]; simpl in *.
  - injection Hi as ->. rewrite forEachColor_other by done.
    by rewrite lookup_insert_eq, Nat.add_0_r.
  - rewrite (IH (S index) _ i f) by done.
    by replace (S index + i) with (index + S i) by lia.
Qed.

Lemma merged_lookup hot cur fs prev i f :
  NoDup (map Finger.id fs) → fs !! i = Some f →
  (forEachColor hot cur 0 fs ∅ ∪ prev) !! Finger.id f
  = Some (if (i =? cur)%nat then hot else idleColor).
Proof.
  intros Hnd Hi. apply lookup_union_Some_l.
  by rewrite (forEachColor_lookup hot cur fs 0 ∅ i f).
Qed.

Lemma merged_other hot cur fs (prev : gmap string string) k :
  k ∉ map Finger.id fs → (forEachColor hot cur 0 fs ∅ ∪ prev) !! k = prev !! k.
Proof.
  intros Hk. apply lookup_union_r. by rewrite forEachColor_other.
Qed.

Lemma cycleColors_lookup w j i f :
  NoDup (map Finger.id (snapshotOf w)) → snapshotOf w !! i = Some f →
  cycleColors w (S j) !! Finger.id f
  = Some (if (i =? S j mod length (snapshotOf w))%nat then highlightColor else idleColor).
Proof. intros Hnd Hi. cbn [cycleColors]. by apply merged_lookup. Qed.

Lemma cycleColors_other w j k :
  k ∉ map Finger.id (snapshotOf w) → cycleColors w j !! k = fingerColors w !! k.
Proof.
  intros Hk. induction j as [|j IH]; [done|].
  cbn [cycleColors]. by rewrite merged_other.
Qed.

Lemma blinkColors_other rnd w winner j k :
  k ≠ Finger.id winner → blinkColors rnd w winner j !! k = wonColors rnd w !! k.
Proof.
  intros Hk. induction j as [|j IH]; [done|].
  cbn [blinkColors]. by rewrite lookup_insert_ne.
Qed.

Lemma blinkColors_winner rnd w winner j :
  blinkColors rnd w winner (S j) !! Finger.id winner = Some (blinkColorAt (S j)).
Proof. cbn [blinkColors]. apply lookup_insert_eq. Qed.

(** ** Counting the visits of the cycling phase *)




(** ** The draw *)


Lemma Qfloor_bounds (x : Q) :
  (inject_Z (Qfloor x) <= x)%Q ∧ (x < inject_Z (Qfloor x + 1))%Q.
Proof. split; [apply Qfloor_le | apply Qlt_floor]. Qed.



Lemma randomIndexOf_lt (r : Q) (K : nat) :
  (0 <= r)%Q → (r < 1)%Q → 0 < K → randomIndexOf r K < K.
Proof.
  intros H0 H1 HK. unfold randomIndexOf.
  assert (Hk : (0 < inject_Z (Z.of_nat K))%Q) by (unfold Qlt; simpl; lia).
  destruct (Qfloor_bounds (r * inject_Z (Z.of_nat K))) as [Hlo Hhi].
  assert (Hlt : (Qfloor (r * inject_Z (Z.of_nat K)) < Z.of_nat K)%Z).
  { rewrite Zlt_Qlt. eapply Qle_lt_trans; [exact Hlo|].
    rewrite <- (Qmult_1_l (inject_Z (Z.of_nat K))) at 2.
    by apply Qmult_lt_compat_r. }
  lia.
Qed.



(** ** A session started from an idle screen *)

Lemma draw_winner rnd w :
  snapshotOf w ≠ [] →
  (0 <= rnd (randomCalls w))%Q → (rnd (randomCalls w) < 1)%Q →
  drawOf rnd w < length (snapshotOf w)
  ∧ ∃ winner, snapshotOf w !! drawOf rnd w = Some winner.
Proof.
  intros Hk H0 H1.
  assert (Hlt : drawOf rnd w < length (snapshotOf w)).
  { apply randomIndexOf_lt; try done. destruct (snapshotOf w); [done | simpl; lia]. }
  split; [done|]. by apply lookup_lt_is_Some_2.
Qed.

Lemma sessionWorld_0 rnd w winner : sessionWorld rnd w winner 0 = cycling w 0.
Proof. unfold sessionWorld. by nat_cases. Qed.

Lemma session_from_pick rnd w winner n :
  timers w = [] → selecting w = false → snapshotOf w ≠ [] →
  snapshotOf w !! drawOf rnd w = Some winner →
  n ≤ cyclesOf w + 8 →
  fires rnd n (selectRandomFinger w)
  = Some (map (sessionObs rnd w) (seq 0 n), sessionWorld rnd w winner n).
Proof.
  intros Ht Hs Hk Hwin Hn. rewrite select_cycling by done.
  rewrite <- (sessionWorld_0 rnd w winner). by rewrite fires_session.
Qed.


Lemma sessionWorld_fingers rnd w winner n :
  fingers (sessionWorld rnd w winner n) = fingers w.
Proof. unfold sessionWorld. by nat_cases. Qed.

Lemma cycling_obs rnd w j :
  j ≤ cyclesOf w →
  map (sessionObs rnd w) (seq 0 j) = map Highlighted (visits (length (snapshotOf w)) j).
Proof.
  intros Hj. unfold visits. rewrite <- seq_shift, !map_map. apply map_ext_in.
  intros n [_ Hn]%in_seq. unfold sessionObs. by nat_cases.
Qed.

Lemma blinking_obs rnd w m :
  m ≤ 6 → map (sessionObs rnd w) (seq (S (cyclesOf w)) m) = map Blinked (seq 1 m).
Proof.
  intros Hm. apply (list_eq_same_length _ _ m); [by rewrite length_map, length_seq..|].
  intros i x y Hi. rewrite !list_lookup_fmap, !lookup_seq_lt by done. simpl.
  intros [= <-] [= <-]. unfold sessionObs. nat_cases. f_equal. lia.
Qed.

Lemma fires_app rnd n m w os w' os' w'' :
  fires rnd n w = Some (os, w') → fires rnd m w' = Some (os', w'') →
  fires rnd (n + m) w = Some (os ++ os', w'').
Proof.
  revert w os. induction n as [|n IH]; intros w os Hn Hm; simpl in *.
  - by injection Hn as <- <-.
  - destruct (fire rnd w) as [[o v]|]; [|done].
    destruct (fires rnd n v) as [[os1 v1]|] eqn:Hv; [|done].
    injection Hn as <- <-. by rewrite (IH v os1 Hv Hm).
Qed.


Ltac times :=
  unfold outcomeTime, selectionTimeOf, cyclesOf, selectionSpeed, numberOfCycles,
         blinkPeriod, sessionEndDelay in *; lia.

Lemma fires_cycling rnd w m : ∀ n,
  snapshotOf w ≠ [] → n + m ≤ cyclesOf w →
  fires rnd m (cycling w n)
  = Some (map (sessionObs rnd w) (seq n m), cycling w (n + m)).
Proof.
  induction m as [|m IH]; intros n Hk Hn.
  - simpl. by rewrite Nat.add_0_r.
  - cbn [fires seq map]. rewrite fire_cycling by (done || unfold cyclesOf in Hn; lia).
    rewrite IH by (done || lia).
    replace (S n + m) with (n + S m) by lia. do 3 f_equal.
    unfold sessionObs. by nat_cases.
Qed.

(** The last tick of the third round and the callback that stops the
    cycling are due at the same instant; the tick runs first because its
    timer was created first. *)
Remark last_tick_due_with_stop (w : World) :
  snapshotOf w ≠ [] →
  due (cycleTimer w (cyclesOf w - 1)) = due (outcomeTimer w)
  ∧ earlier (cycleTimer w (cyclesOf w - 1)) (outcomeTimer w) = true.
Proof.
  intros Hk.
  assert (Hdue : due (cycleTimer w (cyclesOf w - 1)) = due (outcomeTimer w)).
  { unfold cycleTimer, outcomeTimer. cbn [due].
    destruct (snapshotOf w) as [|f l] eqn:Hsnap; [done|].
    unfold selectionTimeOf, cyclesOf, selectionSpeed, numberOfCycles.
    rewrite Hsnap. cbn [length]. lia. }
  split; [done|]. apply earlier_true; [lia | cbn [cycleTimer outcomeTimer tid]; lia].
Qed.





Lemma blinking_from_outcome rnd w winner m :
  snapshotOf w ≠ [] → snapshotOf w !! drawOf rnd w = Some winner → m ≤ 6 →
  fires rnd m (blinking rnd w winner 0)
  = Some (map Blinked (seq 1 m), blinking rnd w winner m).
Proof.
  intros Hk Hwin Hm.
  assert (Hw : ∀ j, j ≤ 6 → sessionWorld rnd w winner (S (cyclesOf w) + j)
                            = blinking rnd w winner j).
  { intros j Hj. unfold sessionWorld. nat_cases. f_equal. lia. }
  rewrite <- (Hw 0), Nat.add_0_r by lia.
  rewrite fires_session by (done || lia).
  by rewrite blinking_obs, Hw.
Qed.

(** C7: after the winner is designated, a timer of period 300 runs exactly 6
    times; its m-th tick writes the winner's colour entry, alternating
    between the two winner colours, and writes no other entry; the 6th tick
    stops the timer, the next callback is the end of the session and after
    it nothing is left to run. *)
Theorem blink_runs_six_ticks (Math_random : nat → Q) (w : World) :
  timers w = [] → selecting w = false → snapshotOf w ≠ [] →
  (0 <= Math_random (randomCalls w))%Q → (Math_random (randomCalls w) < 1)%Q →
  let K := length (snapshotOf w) in
  ∃ winner os wo,
    snapshotOf w !! randomIndexOf (Math_random (randomCalls w)) K = Some winner
    ∧ fires Math_random (K * 3 + 1) (selectRandomFinger w)
      = Some (os ++ [WinnerChosen (randomIndexOf (Math_random (randomCalls w)) K)], wo)
    ∧ (∀ m, 1 ≤ m ≤ 6 →
         ∃ wm, fires Math_random m wo = Some (map Blinked (seq 1 m), wm)
           ∧ now wm = now wo + 300 * m
           ∧ fingerColors wm !! Finger.id winner
             = Some (if (m mod 2 =? 0)%nat then winnerColor else winnerBlinkColor)
           ∧ (∀ k, k ≠ Finger.id winner → fingerColors wm !! k = fingerColors wo !! k)
           ∧ (m < 6 → ∃ t, t ∈ timers wm ∧ callback t = BlinkTick winner m
                           ∧ repeat t = Some 300 ∧ due t = now wm + 300)
           ∧ (m = 6 → ∀ t f c, t ∈ timers wm → callback t ≠ BlinkTick f c))
    ∧ ∃ we, fires Math_random 7 wo = Some (map Blinked (seq 1 6) ++ [SessionEnded], we)
        ∧ timers we = [] ∧ fire Math_random we = None.
Proof.
  intros Ht Hs Hk H0 H1 K.
  destruct (draw_winner Math_random w Hk H0 H1) as (Hlt & winner & Hwin).
  exists winner, (map Highlighted (visits K (K * 3))), (blinking Math_random w winner 0).
  split; [done|]. split; [|split].
  - apply (fires_app _ (K * 3) 1 _ _ (cycling w (cyclesOf w))).
    + rewrite select_cycling by done. change (K * 3) with (cyclesOf w).
      rewrite (fires_cycling Math_random w (cyclesOf w) 0) by (done || lia).
      by rewrite cycling_obs.
    + cbn [fires]. unfold cyclesOf. by rewrite (fire_outcome Math_random w winner).
  - intros m [Hm1 Hm6]. exists (blinking Math_random w winner m).
    split; [by apply blinking_from_outcome|].
    split; [cbn [blinking now]; times|].
    destruct m as [|m]; [lia|]. split; [apply blinkColors_winner|].
    split; [intros k Hne; cbn [blinking fingerColors];
            by rewrite !blinkColors_other|].
    split.
    + intros Hlt6. exists (blinkTimer w winner (S m)).
      cbn [blinking timers now]. rewrite (proj2 (Nat.ltb_lt _ _) Hlt6).
      split; [by left|]. repeat split. unfold blinkTimer. cbn [due]. times.
    + intros -> t f c. cbn [blinking timers Nat.ltb Nat.leb app].
      by intros [->|[]%elem_of_nil]%elem_of_cons.
  - exists (ended Math_random w winner). split; [|done].
    apply (fires_app _ 6 1 _ _ (blinking Math_random w winner 6)).
    + by apply blinking_from_outcome.
    + cbn [fires]. by rewrite fire_end.
Qed.

Lemma blink_runs_six_ticks_witness :
  ∃ os wo w6,
    fires halfRandom 4 oneFingerSession = Some (os ++ [WinnerChosen 0], wo)
    ∧ fires halfRandom 6 wo = Some (map Blinked [1; 2; 3; 4; 5; 6], w6)
    ∧ fingerColors w6 !! fingerIdOf touchA = Some winnerColor.
Proof.
  destruct (blink_runs_six_ticks halfRandom oneFingerWorld eq_refl eq_refl
              ltac:(by vm_compute) ltac:(by vm_compute) ltac:(by vm_compute))
    as (winner & os & wo & Hwin & Hrun & Hblink & _).
  destruct (Hblink 6 ltac:(lia)) as (w6 & Hsix & _ & Hcol & _).
  exists os, wo, w6. split; [exact Hrun|]. split; [exact Hsix|].
  vm_compute in Hwin. injection Hwin as <-. exact Hcol.
Defined.






Lemma select_noop w :
  snapshotOf w = [] ∨ selecting w = true → selectRandomFinger w = w.
Proof.
  intros [Hnone|Hsel]; unfold selectRandomFinger; fold (snapshotOf w).
  - by rewrite Hnone.
  - by rewrite Hsel, orb_true_r.
Qed.



(** ** Sessions do not overlap unless Reset interrupts one *)

Lemma sessionShape_idle w : sessionShape w → selecting w = false → timers w = [].
Proof.
  unfold sessionShape. destruct (timers w) as [|t [|u [|v l]]]; try done.
  - intros (Hs & _) Hf. congruence.
  - intros (Hs & _) Hf. congruence.
Qed.

Lemma fire_inv rnd w o w' :
  fire rnd w = Some (o, w') →
  ∃ t, nextTimer (timers w) = Some t
       ∧ w' = snd (runCallback rnd t (rearm t (set_now (due t) w))).
Proof.
  unfold fire. destruct (nextTimer (timers w)) as [t|]; [|done].
  intros [= Hrun]. exists t. by rewrite Hrun.
Qed.

Lemma earlier_lt a b : due a < due b → earlier a b = true.
Proof. intros H. unfold earlier. by rewrite (proj2 (Nat.ltb_lt _ _) H). Qed.

Lemma fire_sessionShape rnd w o w' :
  sessionShape w → fire rnd w = Some (o, w') → sessionShape w'.
Proof.
  intros Hshape (t0 & Hnext & ->)%fire_inv. revert Hshape Hnext.
  unfold sessionShape.
  destruct w as [fs sel wi cols area ts nid nw rc eff]. cbn [timers selecting].
  destruct ts as [|t [|u [|v l]]]; try done.
  - (* the end of the session alone *)
    intros (-> & Hcb & Hrep). cbn [nextTimer]. intros [= <-].
    unfold runCallback, rearm, clearInterval. rewrite Hcb, Hrep. world_simpl.
    rewrite (filter_cons_False _ t) by (cbn; intros H; by apply H).
    by rewrite filter_nil.
  - intros (-> & Htid & Hrepu & Hshape). cbn [nextTimer].
    assert (Hne : (tid u =? tid t)%nat = false) by (apply Nat.eqb_neq; lia).
    destruct Hshape as [(gs & c & ms & Hcbt & Hrept & Hcbu)
                       |(f & j & Hcbt & Hrept & Hcbu & Hj & Hdue)].
    + destruct (earlier t u); intros [= <-]; unfold runCallback, rearm.
      * (* a tick of the cycling timer *)
        rewrite Hcbt, Hrept. unfold setCallback, updateFingerColors, mergeColors.
        repeat (world_simpl; rewrite ?Hne).
        split; [done|]. split; [done|]. split; [done|]. left.
        eexists _, _, _. by repeat split.
      * (* the outcome *)
        rewrite Hcbu, Hrepu. unfold clearInterval. world_simpl.
        rewrite (filter_cons_True _ t) by (cbn; done).
        rewrite (filter_cons_False _ u) by (cbn; intros H; by apply H).
        rewrite filter_nil, (filter_cons_False _ t) by (cbn; intros H; by apply H).
        rewrite filter_nil. world_simpl.
        destruct (gs !! randomIndexOf (rnd rc) (length gs)) as [winner|]; [|done].
        unfold mergeColors, setInterval, setTimeout. world_simpl.
        split; [done|]. split; [lia|]. split; [done|]. right.
        eexists _, 0. repeat split; [lia|]. unfold blinkPeriod, sessionEndDelay. lia.
    + (* a blink tick: it is due before the end of the session *)
      rewrite earlier_lt by (unfold blinkPeriod in *; lia). intros [= <-].
      unfold runCallback, rearm. rewrite Hcbt, Hrept. unfold setCallback.
      repeat (world_simpl; rewrite ?Hne).
      destruct (Nat.leb_spec 6 (j + 1)) as [Hlast|Hmore].
      * unfold clearInterval. world_simpl.
        rewrite (filter_cons_False _ _) by (cbn; intros H; by apply H).
        rewrite (filter_cons_True _ u) by (cbn; done).
        rewrite filter_nil. by world_simpl.
      * world_simpl. split; [done|]. split; [done|]. split; [done|]. right.
        eexists _, (j + 1). do 3 (split; [done|]). split; [lia|].
        unfold blinkPeriod in *. lia.
Qed.

Lemma handle_sessionShape rnd e w :
  e ≠ PressReset → sessionShape w → sessionShape (handle rnd e w).
Proof.
  intros He Hw. pose proof (sessionShape_idle w Hw) as Hidle.
  destruct e as [touches|touches| | | | |px py wd ht| |ms]; simpl; try done.
  - destruct (selecting w) eqn:Hsel.
    + unfold onPanResponderGrant. by rewrite Hsel.
    + destruct (grant_fields w touches Hsel) as (_ & _ & Hs & _ & Ht).
      unfold sessionShape. by rewrite Ht, Hidle.
  - unfold onPanResponderMove. by destruct (selecting w).
  - destruct (selecting w) eqn:Hsel; [by rewrite select_noop by (by right)|].
    destruct (snapshotOf w) as [|f l] eqn:Hsnap; [by rewrite select_noop by (by left)|].
    rewrite select_cycling by (done || by rewrite ?Hsnap, ?Hidle).
    unfold sessionShape, cycling, cycleTimer, outcomeTimer.
    cbn [timers selecting tid repeat callback].
    split; [done|]. split; [lia|]. split; [done|]. left. eexists _, _, _. by repeat split.
  - destruct (fire rnd w) as [[o w']|] eqn:Hfire; [|done].
    by apply (fire_sessionShape rnd w o w').
  - unfold elapse. by destruct (forallb _ _).
Qed.

(** As long as Reset is not pressed, sessions do not overlap: whenever the
    selecting flag is clear no timer is pending, so every accepted Pick
    Finger starts from a screen without timers. *)
Lemma idle_without_reset rnd es :
  Forall (λ e, e ≠ PressReset) es →
  selecting (run rnd es initialWorld) = false → timers (run rnd es initialWorld) = [].
Proof.
  intros Hes. apply sessionShape_idle.
  assert (Hinv : ∀ es w, Forall (λ e, e ≠ PressReset) es → sessionShape w →
                         sessionShape (run rnd es w)).
  { clear. induction es as [|e es IH]; intros w Hes Hw; [done|].
    apply Forall_cons in Hes as [He Hes].
    change (sessionShape (run rnd es (handle rnd e w))).
    apply IH; [done|]. by apply handle_sessionShape. }
  by apply Hinv.
Qed.

(** The timers of a session interrupted by Reset go on: the next tick fills
    the colour map again and the outcome sets the winner index, on an empty
    registry; the end of the interrupted session clears the flag of the
    session started after the Reset while that one is still cycling, and a
    further Pick Finger is then accepted. *)
Remark reset_mid_session_leaves_stale_timers :
  fingers (run halfRandom [PressReset; TimerFires] oneFingerSession) = []
  ∧ fingerColors (run halfRandom [PressReset; TimerFires] oneFingerSession)
      !! fingerIdOf touchA = Some highlightColor
  ∧ winnerIndex (run halfRandom (PressReset :: replicate 4 TimerFires) oneFingerSession)
    = Some 0
  ∧ selecting afterResetScenario = false
  ∧ (∃ t fs c, t ∈ timers afterResetScenario ∧ callback t = CycleTick fs c)
  ∧ selectRandomFinger afterResetScenario ≠ afterResetScenario.
Proof.
  do 4 (split; [by vm_compute|]). split.
  - eexists _, _, _. split; [vm_compute; by left | reflexivity].
  - intros Heq. apply (f_equal selecting) in Heq. by vm_compute in Heq.
Qed.

(** * Further properties of the screen *)

(** ** The play surface and the responder gates *)

(** X1: once the game area is measured at (pageX, pageY) with the given
    width and height, a touch is in bounds exactly when its x lies in
    [pageX, pageX + width] and its y in [pageY, pageY + height - 70): the test
    against the bottom edge adds nothing; a game area of height 70 or less has
    no in-bounds point, and neither has the screen before it is measured. *)
Theorem measured_bounds (w : World) (px py wd ht : Z) (t : Touch.t) :
  (inBounds (measureGameArea px py wd ht w) t
   ↔ (px <= Touch.pageX t <= px + wd ∧ py <= Touch.pageY t < py + ht - 70)%Z)
  ∧ ((ht <= 70)%Z → ¬ inBounds (measureGameArea px py wd ht w) t)
  ∧ ¬ inBounds initialWorld t.
Proof.
  assert (Hiff : inBounds (measureGameArea px py wd ht w) t
                 ↔ (px <= Touch.pageX t <= px + wd ∧ py <= Touch.pageY t < py + ht - 70)%Z).
  { rewrite inBounds_iff. cbn. lia. }
  split; [exact Hiff|]. split.
  - intros Hht Hin. apply Hiff in Hin. lia.
  - rewrite inBounds_iff. cbn. lia.
Qed.

(** X2: both gates look at the first touch only and throw on an empty touch
    list.  The start gate accepts exactly the touches at least 80 above the
    bottom edge (and not above the top), whatever their x; the move gate is
    the bounds test.  So a touch the start gate accepts is in bounds as soon
    as its x is inside the game area, and an in-bounds touch passes the start
    gate unless it lies in the 10 units above the reserved strip. *)
Theorem responder_gates (w : World) (t : Touch.t) (rest : list Touch.t) :
  let area := gameAreaDimensions w in
  onStartShouldSetPanResponder [] w = None
  ∧ onMoveShouldSetPanResponder [] w = None
  ∧ (onStartShouldSetPanResponder (t :: rest) w = Some true
     ↔ (Area.pageY area <= Touch.pageY t <= Area.bottom area - 80)%Z)
  ∧ (onMoveShouldSetPanResponder (t :: rest) w = Some true ↔ inBounds w t)
  ∧ (onStartShouldSetPanResponder (t :: rest) w = Some true →
     (Area.pageX area <= Touch.pageX t <= Area.pageX area + Area.width area)%Z →
     inBounds w t)
  ∧ (inBounds w t → (Touch.pageY t <= Area.bottom area - 80)%Z →
     onStartShouldSetPanResponder (t :: rest) w = Some true).
Proof.
  intros area.
  assert (Hstart : onStartShouldSetPanResponder (t :: rest) w = Some true
                   ↔ (Area.pageY area <= Touch.pageY t <= Area.bottom area - 80)%Z).
  { unfold onStartShouldSetPanResponder. fold area. split.
    - intros [= H]. apply andb_true_iff in H as [H1 H2]. lia.
    - intros [H1 H2]. f_equal. apply andb_true_iff. split; lia. }
  split; [done|]. split; [done|]. split; [exact Hstart|]. split; [|split].
  - unfold onMoveShouldSetPanResponder, inBounds. split; [by intros [= H] | by intros ->].
  - intros Hs Hx. apply Hstart in Hs. apply inBounds_iff. fold area. cbn zeta. lia.
  - intros Hin Hy. apply inBounds_iff in Hin. fold area in Hin. cbn zeta in Hin.
    apply Hstart. lia.
Qed.

Lemma responder_gates_witness :
  onStartShouldSetPanResponder [Touch.mk 0 900 100] measuredWorld = Some true
  ∧ ¬ inBounds measuredWorld (Touch.mk 0 900 100)
  ∧ inBounds measuredWorld touchA
  ∧ onStartShouldSetPanResponder [touchA] measuredWorld = Some true.
Proof.
  destruct (responder_gates measuredWorld touchA []) as (_ & _ & _ & _ & _ & Hgate).
  split; [reflexivity|]. split; [by vm_compute|].
  assert (Hin : inBounds measuredWorld touchA) by (by vm_compute).
  split; [exact Hin|]. apply Hgate; [exact Hin | by vm_compute].
Defined.

(** ** The start handler, beyond one batch *)

Lemma run_invariant rnd (P : World → Prop) (Q : Event → Prop) :
  (∀ e w, Q e → P w → P (handle rnd e w)) →
  ∀ es w, Forall Q es → P w → P (run rnd es w).
Proof.
  intros Hstep. induction es as [|e es IH]; intros w Hes Hw; [done|].
  apply Forall_cons in Hes as [He Hes].
  change (P (run rnd es (handle rnd e w))). apply IH; [done|]. by apply Hstep.
Qed.

Lemma run_invariant_all rnd (P : World → Prop) :
  (∀ e w, P w → P (handle rnd e w)) → ∀ es w, P w → P (run rnd es w).
Proof.
  intros Hstep es w Hw.
  apply (run_invariant rnd P (λ _, True)); [auto | by apply Forall_true | done].
Qed.

Lemma run_allActive rnd es : allActive (run rnd es initialWorld).
Proof.
  apply run_invariant_all; [intros e w; apply handle_allActive | constructor].
Qed.

Lemma grant_effects w touches :
  effects (onPanResponderGrant touches w)
  = if selecting w then effects w
    else match validTouchesOf w touches with
         | [] => effects w
         | _ => effects w ++ [PlayTapSound]
         end.
Proof.
  unfold onPanResponderGrant. destruct (selecting w); [done|].
  rewrite grant_color_loop. by destruct (validTouchesOf w touches).
Qed.

Lemma grant_area w touches :
  gameAreaDimensions (onPanResponderGrant touches w) = gameAreaDimensions w.
Proof.
  unfold onPanResponderGrant. destruct (selecting w); [done|].
  rewrite grant_color_loop. by destruct (validTouchesOf w touches).
Qed.

(** X3: a start batch plays the tap sound once when at least one of its
    touches is in bounds and no session is running, however many touches it
    carries, and not at all otherwise; it never touches the selecting flag,
    the winner index, the timers or the measured area.  On a registry whose
    contacts are all active (every reachable one) a batch without in-bounds
    touch leaves the whole state as it was. *)
Theorem grant_frame (w : World) (touches : list Touch.t) :
  let w' := onPanResponderGrant touches w in
  (effects w' = if negb (selecting w) && negb (bool_decide (validTouchesOf w touches = []))
                then effects w ++ [PlayTapSound] else effects w)
  ∧ selecting w' = selecting w ∧ winnerIndex w' = winnerIndex w
  ∧ timers w' = timers w ∧ gameAreaDimensions w' = gameAreaDimensions w
  ∧ (allActive w → (∀ t, t ∈ touches → ¬ inBounds w t) → w' = w).
Proof.
  intros w'. unfold w'. split; [|split; [|split; [|split; [|split]]]].
  - rewrite grant_effects. destruct (selecting w); [done|]. simpl.
    destruct (validTouchesOf w touches); by simpl.
  - destruct (selecting w) eqn:Hsel.
    + unfold onPanResponderGrant. by rewrite Hsel.
    + by destruct (grant_fields w touches Hsel) as (_ & _ & -> & _).
  - destruct (selecting w) eqn:Hsel.
    + unfold onPanResponderGrant. by rewrite Hsel.
    + by destruct (grant_fields w touches Hsel) as (_ & _ & _ & -> & _).
  - destruct (selecting w) eqn:Hsel.
    + unfold onPanResponderGrant. by rewrite Hsel.
    + by destruct (grant_fields w touches Hsel) as (_ & _ & _ & _ & ->).
  - apply grant_area.
  - intros Hall Hout.
    assert (Hnone : validTouchesOf w touches = []).
    { apply elem_of_nil_inv. intros t [Hb Hin]%elem_of_validTouchesOf.
      by apply (Hout t). }
    unfold onPanResponderGrant. destruct (selecting w); [done|].
    rewrite Hnone. cbn [foldl map]. rewrite app_nil_r.
    replace (filter _ (fingers w)) with (fingers w); [by destruct w|].
    symmetry. unfold allActive in Hall. clear -Hall.
    induction Hall as [|f l Hf Hl IH]; [done|].
    rewrite filter_cons_True; [by f_equal|].
    unfold includes. rewrite bool_decide_eq_false_2 by apply not_elem_of_nil.
    by rewrite Hf.
Qed.

Lemma grant_frame_witness :
  allActive twoFingerWorld
  ∧ onPanResponderGrant [touchInStrip] twoFingerWorld = twoFingerWorld.
Proof.
  assert (Hall : allActive twoFingerWorld) by (repeat constructor).
  split; [exact Hall|].
  destruct (grant_frame twoFingerWorld [touchInStrip]) as (_ & _ & _ & _ & _ & Hsame).
  apply Hsame; [exact Hall|].
  intros t Hin. apply list_elem_of_singleton in Hin. subst t. by vm_compute.
Defined.

Lemma paintIdle_idem m l : paintIdle (paintIdle m l) l = paintIdle m l.
Proof.
  apply map_eq. intros k. rewrite !paintIdle_lookup. by case_bool_decide.
Qed.

(** X4: delivering the same start batch twice leaves the registry and the
    colour map as after the first delivery (the tap sound alone is played
    again). *)
Theorem grant_twice (w : World) (touches : list Touch.t) :
  let w1 := onPanResponderGrant touches w in
  let w2 := onPanResponderGrant touches w1 in
  fingers w2 = fingers w1 ∧ fingerColors w2 = fingerColors w1
  ∧ selecting w2 = selecting w1 ∧ winnerIndex w2 = winnerIndex w1
  ∧ timers w2 = timers w1.
Proof.
  intros w1 w2. destruct (selecting w) eqn:Hsel.
  { unfold w2, w1, onPanResponderGrant. by rewrite !Hsel. }
  destruct (grant_fields w touches Hsel) as (Hf1 & Hc1 & Hs1 & Hw1 & Ht1).
  fold w1 in Hf1, Hc1, Hs1, Hw1, Ht1.
  destruct (grant_fields w1 touches Hs1) as (Hf2 & Hc2 & Hs2 & Hw2 & Ht2).
  fold w2 in Hf2, Hc2, Hs2, Hw2, Ht2.
  assert (Harea : gameAreaDimensions w1 = gameAreaDimensions w) by apply grant_area.
  assert (Hvalid : validTouchesOf w1 touches = validTouchesOf w touches).
  { unfold validTouchesOf. by rewrite Harea. }
  rewrite Hvalid in Hf2, Hc2.
  split; [|split; [|split; [|split]]]; try congruence.
  - rewrite Hf2, Hf1, filter_app. f_equal.
    rewrite <- (app_nil_r (filter _ (fingers w))) at 2. f_equal.
    + rewrite list_filter_filter. apply list_filter_iff. tauto.
    + apply elem_of_nil_inv. intros f [Hf Hin]%list_elem_of_filter.
      apply andb_true_iff in Hf as [Hf _]. apply negb_true_iff in Hf.
      unfold includes in Hf. apply bool_decide_eq_false in Hf. apply Hf.
      apply list_elem_of_fmap. eauto.
  - rewrite Hc2, Hc1. apply paintIdle_idem.
Qed.

(** ** Contacts stay until Reset *)

Lemma grant_keeps_ids w touches k :
  allActive w → k ∈ map Finger.id (fingers w) →
  k ∈ map Finger.id (fingers (onPanResponderGrant touches w)).
Proof.
  intros Hall (f & -> & Hf)%list_elem_of_fmap.
  destruct (selecting w) eqn:Hsel.
  { unfold onPanResponderGrant. rewrite Hsel. apply list_elem_of_fmap. eauto. }
  destruct (decide (Finger.id f ∈ map fingerIdOf (validTouchesOf w touches)))
    as [(t & Hid & [Hb Ht]%elem_of_validTouchesOf)%list_elem_of_fmap|Hno].
  - apply list_elem_of_fmap. exists (newFinger t). split; [done|].
    apply grant_elem_of; [done|]. right. eauto.
  - apply list_elem_of_fmap. exists f. split; [done|].
    apply grant_elem_of; [done|]. left. split; [done|]. split.
    + unfold allActive in Hall. rewrite Forall_forall in Hall. by apply Hall.
    + intros t Ht Hb Hid. apply Hno. apply list_elem_of_fmap. exists t.
      split; [done|]. by apply elem_of_validTouchesOf.
Qed.

Lemma handle_keeps_ids rnd e w k :
  e ≠ PressReset → allActive w → k ∈ map Finger.id (fingers w) →
  k ∈ map Finger.id (fingers (handle rnd e w)).
Proof.
  intros He Hall Hk. destruct e as [touches|touches| | | | |px py wd ht| |ms];
    simpl; try done.
  - by apply grant_keeps_ids.
  - by rewrite move_ids.
  - by rewrite select_fingers.
  - destruct (fire rnd w) as [[o w']|] eqn:Hfire; [|done].
    by rewrite (fire_fingers rnd w o w' Hfire).
  - unfold elapse. by destruct (forallb _ _).
Qed.

(** X5: nothing but Reset removes a contact: lifting or cancelling a touch
    changes nothing at all, and after any run of events without Reset every
    identifier that was in the registry of a reachable state is still in
    it. *)
Theorem contacts_stay_until_reset (Math_random : nat → Q) (es es' : list Event) (k : string) :
  Forall (λ e, e ≠ PressReset) es' →
  k ∈ map Finger.id (fingers (run Math_random es initialWorld)) →
  k ∈ map Finger.id (fingers (run Math_random (es ++ es') initialWorld))
  ∧ run Math_random (es ++ [TouchEnd]) initialWorld = run Math_random es initialWorld
  ∧ run Math_random (es ++ [TouchCancel]) initialWorld = run Math_random es initialWorld.
Proof.
  intros Hes Hk. split; [|split].
  - unfold run. rewrite foldl_app. fold (run Math_random es initialWorld).
    fold (run Math_random es' (run Math_random es initialWorld)).
    pose proof (run_allActive Math_random es) as Hall.
    revert Hall Hk. generalize (run Math_random es initialWorld). clear es.
    induction es' as [|e es' IH]; intros w Hall Hk; [done|].
    apply Forall_cons in Hes as [He Hes].
    change (k ∈ map Finger.id (fingers (run Math_random es' (handle Math_random e w)))).
    apply IH; [done | by apply handle_allActive | by apply handle_keeps_ids].
  - unfold run. by rewrite foldl_app.
  - unfold run. by rewrite foldl_app.
Qed.

Lemma contacts_stay_until_reset_witness :
  fingerIdOf touchA ∈ map Finger.id
    (fingers (run halfRandom
                ([Measure 0 0 400 800; TouchStart [touchA]]
                 ++ [TouchEnd; TouchStart [touchB]; PressPick; TimerFires])
                initialWorld)).
Proof.
  apply (contacts_stay_until_reset halfRandom
           [Measure 0 0 400 800; TouchStart [touchA]]
           [TouchEnd; TouchStart [touchB]; PressPick; TimerFires]).
  - repeat constructor; discriminate.
  - vm_compute. by left.
Defined.

Lemma handle_keys_and_active rnd e w :
  wellFormed e →
  NoDup (map Finger.id (fingers w)) ∧ allActive w →
  NoDup (map Finger.id (fingers (handle rnd e w))) ∧ allActive (handle rnd e w).
Proof.
  intros He [Hnd Hall]. split; [by apply handle_keys_unique | by apply handle_allActive].
Qed.

Ltac well_formed_events :=
  repeat (apply Forall_cons; split;
          [first [exact I | apply (bool_decide_unpack _); vm_compute; exact I]|]);
  apply Forall_nil.

(** X6: with touch identifiers distinct within each event, the contacts of
    the registry have pairwise distinct identifiers in every reachable
    state. *)
Theorem registry_identifiers_unique (Math_random : nat → Q) (es : list Event) :
  Forall wellFormed es →
  NoDup (map Finger.id (fingers (run Math_random es initialWorld))).
Proof.
  intros Hes.
  apply (run_invariant Math_random (λ w, NoDup (map Finger.id (fingers w))) wellFormed);
    [|done|constructor].
  intros e w He Hw. by apply handle_keys_unique.
Qed.

Lemma registry_identifiers_unique_witness :
  NoDup (map Finger.id
           (fingers (run halfRandom
                       [Measure 0 0 400 800; TouchStart [touchA; touchB];
                        TouchStart [Touch.mk 1 50 60; Touch.mk 2 70 80]]
                       initialWorld))).
Proof.
  apply registry_identifiers_unique. by well_formed_events.
Defined.

Lemma grant_length w touches :
  NoDup (map Touch.identifier touches) → NoDup (map Finger.id (fingers w)) → allActive w →
  length (fingers w) ≤ length (fingers (onPanResponderGrant touches w)).
Proof.
  intros Ht Hnd Hall. destruct (selecting w) eqn:Hsel.
  { unfold onPanResponderGrant. by rewrite Hsel. }
  destruct (grant_fields w touches Hsel) as (-> & _).
  set (P := λ f : Finger.t,
         (negb (includes (map Finger.id (map newFinger (validTouchesOf w touches)))
                  (Finger.id f)) && Finger.active f) = true).
  rewrite length_app, length_map.
  assert (Hsplit : length (fingers w)
                   = length (filter P (fingers w)) + length (filter (λ f, ¬ P f) (fingers w))).
  { clear. induction (fingers w) as [|f l IH]; [done|].
    rewrite !filter_cons. destruct (decide (P f)); destruct (decide (¬ P f)); simpl; tauto || lia. }
  rewrite Hsplit. apply Nat.add_le_mono_l.
  rewrite <- (length_map Finger.id), <- (length_map fingerIdOf (validTouchesOf w touches)).
  apply submseteq_length, NoDup_submseteq.
  - eapply sublist_NoDup; [exact Hnd|]. apply fmap_sublist, sublist_filter.
  - intros k (f & -> & [Hf Hin]%list_elem_of_filter)%list_elem_of_fmap.
    unfold P, includes in Hf. rewrite newFinger_ids in Hf.
    unfold allActive in Hall. rewrite Forall_forall in Hall.
    rewrite (Hall f Hin), andb_true_r in Hf.
    destruct (decide (Finger.id f ∈ map fingerIdOf (validTouchesOf w touches))); [done|].
    exfalso. apply Hf. apply negb_true_iff. by apply bool_decide_eq_false.
Qed.

Lemma registry_keys_and_active_aux rnd es :
  Forall wellFormed es →
  NoDup (map Finger.id (fingers (run rnd es initialWorld)))
  ∧ allActive (run rnd es initialWorld).
Proof.
  intros Hes.
  apply (run_invariant rnd
           (λ w, NoDup (map Finger.id (fingers w)) ∧ allActive w) wellFormed);
    [|done|split; constructor].
  intros e w He Hw. by apply handle_keys_and_active.
Qed.

(** X7: with touch identifiers distinct within each event, the registry
    never shrinks except by Reset: no event other than Reset lowers the
    number of contacts of a reachable state. *)
Theorem registry_never_shrinks (Math_random : nat → Q) (es : list Event) (e : Event) :
  Forall wellFormed es → wellFormed e → e ≠ PressReset →
  length (fingers (run Math_random es initialWorld))
  ≤ length (fingers (run Math_random (es ++ [e]) initialWorld)).
Proof.
  intros Hes He Hr.
  pose proof (registry_keys_and_active_aux Math_random es Hes) as [Hnd Hall].
  unfold run at 2. rewrite foldl_app. fold (run Math_random es initialWorld). cbn [foldl].
  destruct e as [touches|touches| | | | |px py wd ht| |ms]; simpl; try done.
  - by apply grant_length.
  - unfold onPanResponderMove. destruct (selecting _); simpl; [done|]. by rewrite length_map.
  - by rewrite select_fingers.
  - destruct (fire Math_random _) as [[o w']|] eqn:Hfire; [|done].
    by rewrite (fire_fingers _ _ o w' Hfire).
  - unfold elapse. by destruct (forallb _ _).
Qed.

Lemma registry_never_shrinks_witness :
  length (fingers (run halfRandom [Measure 0 0 400 800; TouchStart [touchA; touchB]]
                       initialWorld))
  ≤ length (fingers (run halfRandom
                       ([Measure 0 0 400 800; TouchStart [touchA; touchB]]
                        ++ [TouchStart [Touch.mk 1 50 60; Touch.mk 2 70 80]])
                       initialWorld)).
Proof.
  apply registry_never_shrinks; [by well_formed_events| |discriminate].
  apply (bool_decide_unpack _). vm_compute. exact I.
Defined.

(** ** The colour map *)

Lemma rearm_colors t w : fingerColors (rearm t w) = fingerColors w.
Proof. unfold rearm. by destruct (repeat t). Qed.

Lemma rearm_area t w : gameAreaDimensions (rearm t w) = gameAreaDimensions w.
Proof. unfold rearm. by destruct (repeat t). Qed.

Lemma runCallback_colors rnd t w :
  fingerColors (snd (runCallback rnd t w))
  = match callback t with
    | CycleTick fs c =>
        forEachColor highlightColor ((c + 1) mod length fs) 0 fs ∅ ∪ fingerColors w
    | Outcome fs _ =>
        let i := randomIndexOf (rnd (randomCalls w)) (length fs) in
        match fs !! i with
        | Some _ => forEachColor winnerColor i 0 fs ∅ ∪ fingerColors w
        | None => fingerColors w
        end
    | BlinkTick winner n =>
        <[Finger.id winner := blinkColorAt (n + 1)]> (fingerColors w)
    | SessionEnd => fingerColors w
    end.
Proof.
  unfold runCallback. destruct (callback t) as [fs c|fs i|winner n|]; simpl; try done.
  - by case_match.
  - by case_match.
Qed.

Lemma runCallback_area rnd t w :
  gameAreaDimensions (snd (runCallback rnd t w)) = gameAreaDimensions w.
Proof.
  unfold runCallback. destruct (callback t) as [fs c|fs i|winner n|]; simpl; try done.
  - by case_match.
  - by case_match.
Qed.

Lemma select_colors w : fingerColors (selectRandomFinger w) = fingerColors w.
Proof.
  unfold selectRandomFinger.
  destruct ((length (activeOf (fingers w)) =? 0)%nat || selecting w); [done|].
  simpl. by rewrite foldl_perform_fields.
Qed.

Lemma select_area w : gameAreaDimensions (selectRandomFinger w) = gameAreaDimensions w.
Proof.
  unfold selectRandomFinger.
  destruct ((length (activeOf (fingers w)) =? 0)%nat || selecting w); [done|].
  simpl. by rewrite foldl_perform_fields.
Qed.

Lemma forEachColor_values hot cur fs : ∀ index acc k c,
  forEachColor hot cur index fs acc !! k = Some c →
  c = hot ∨ c = idleColor ∨ acc !! k = Some c.
Proof.
  induction fs as [|f fs IH]; intros index acc k c Hk; simpl in Hk; [auto|].
  apply IH in Hk as [?|[?|Hk]]; [auto..|].
  apply lookup_insert_Some in Hk as [[_ <-]|[_ Hk]]; [|auto].
  destruct (index =? cur)%nat; auto.
Qed.

Lemma forEachColor_keeps hot cur fs : ∀ index (acc : gmap string string) k,
  is_Some (acc !! k) → is_Some (forEachColor hot cur index fs acc !! k).
Proof.
  induction fs as [|f fs IH]; intros index acc k Hk; simpl; [done|].
  apply IH. apply lookup_insert_is_Some'. auto.
Qed.

Lemma forEachColor_writes hot cur fs : ∀ index (acc : gmap string string) f,
  f ∈ fs → is_Some (forEachColor hot cur index fs acc !! Finger.id f).
Proof.
  induction fs as [|g fs IH]; intros index acc f Hf; [by apply elem_of_nil in Hf|].
  simpl. apply elem_of_cons in Hf as [->|Hf]; [|by apply IH].
  apply forEachColor_keeps. rewrite lookup_insert_eq. eauto.
Qed.

Lemma merged_inPalette hot cur fs m :
  hot ∈ palette → inPalette m → inPalette (forEachColor hot cur 0 fs ∅ ∪ m).
Proof.
  intros Hhot Hm k c [Hk|[_ Hk]]%lookup_union_Some_raw; [|by apply (Hm k)].
  apply forEachColor_values in Hk as [->|[->|Hk]]; [done| |done].
  unfold palette. by left.
Qed.

Lemma fire_colors_inPalette rnd w o w' :
  fire rnd w = Some (o, w') → inPalette (fingerColors w) → inPalette (fingerColors w').
Proof.
  intros (t & _ & ->)%fire_inv Hm. rewrite runCallback_colors, rearm_colors. cbn [set_now fingerColors].
  destruct (callback t) as [fs c|fs i|winner n|]; try done.
  - apply merged_inPalette; [|done]. unfold palette. right. by left.
  - cbn zeta. case_match; [|done]. apply merged_inPalette; [|done].
    unfold palette. do 2 right. by left.
  - intros k c [[_ <-]|[_ Hk]]%lookup_insert_Some; [|by apply (Hm k)].
    unfold blinkColorAt, palette. destruct (_ =? _)%nat; [do 2 right | do 3 right]; by left.
Qed.

Lemma handle_inPalette rnd e w :
  inPalette (fingerColors w) → inPalette (fingerColors (handle rnd e w)).
Proof.
  intros Hm. destruct e as [touches|touches| | | | |px py wd ht| |ms]; simpl; try done.
  - destruct (selecting w) eqn:Hsel.
    + unfold onPanResponderGrant. by rewrite Hsel.
    + destruct (grant_fields w touches Hsel) as (_ & -> & _).
      intros k c. rewrite paintIdle_lookup. case_bool_decide.
      * intros [= <-]. unfold palette. by left.
      * apply Hm.
  - unfold onPanResponderMove. by destruct (selecting w).
  - by rewrite select_colors.
  - destruct (fire rnd w) as [[o w']|] eqn:Hfire; [|done].
    by apply (fire_colors_inPalette rnd w o w').
  - unfold elapse. by destruct (forallb _ _).
Qed.

Lemma colours_in_palette_aux rnd es k c :
  fingerColors (run rnd es initialWorld) !! k = Some c → c ∈ palette.
Proof.
  revert k c. change (inPalette (fingerColors (run rnd es initialWorld))).
  apply run_invariant_all; [intros e v; apply handle_inPalette | done].
Qed.

(** X8: in every reachable state the colour map holds only the four colours
    of the screen (idle, highlight and the two winner variants), so the
    background computed for any identifier is one of them. *)
Theorem colours_stay_in_palette (Math_random : nat → Q) (es : list Event) (k : string) :
  let w := run Math_random es initialWorld in
  (∀ c, fingerColors w !! k = Some c → c ∈ palette)
  ∧ backgroundColor w k ∈ palette.
Proof.
  intros w.
  assert (Hinv : inPalette (fingerColors w)).
  { intros j c. apply colours_in_palette_aux. }
  split; [apply Hinv|].
  unfold backgroundColor. destruct (fingerColors w !! k) as [c|] eqn:Hk.
  - apply Hinv in Hk. case_bool_decide as He; [|done].
    subst c. unfold palette in Hk.
    repeat (apply elem_of_cons in Hk as [Hk|Hk]; [discriminate|]).
    by apply elem_of_nil in Hk.
  - unfold palette. by left.
Qed.

Lemma fire_colors_keep rnd w o w' k :
  fire rnd w = Some (o, w') →
  is_Some (fingerColors w !! k) → is_Some (fingerColors w' !! k).
Proof.
  intros (t & _ & ->)%fire_inv Hk. rewrite runCallback_colors, rearm_colors.
  cbn [set_now fingerColors].
  destruct (callback t) as [fs c|fs i|winner n|]; try done.
  - apply lookup_union_is_Some. by right.
  - cbn zeta. case_match; [|done]. apply lookup_union_is_Some. by right.
  - apply lookup_insert_is_Some'. by right.
Qed.

Lemma handle_hasEntries rnd e w : hasEntries w → hasEntries (handle rnd e w).
Proof.
  intros Hw. destruct e as [touches|touches| | | | |px py wd ht| |ms]; simpl; try done.
  - destruct (selecting w) eqn:Hsel.
    + unfold onPanResponderGrant. by rewrite Hsel.
    + intros f Hf. destruct (grant_fields w touches Hsel) as (_ & -> & _).
      rewrite paintIdle_lookup. case_bool_decide as Hnew; [eauto|].
      apply grant_elem_of in Hf as [(Hf & _)|(t & Ht & Hb & ->)]; [by apply Hw| |done].
      exfalso. apply Hnew. apply list_elem_of_fmap. exists t. split; [done|].
      by apply elem_of_validTouchesOf.
  - unfold onPanResponderMove, hasEntries. destruct (selecting w); simpl; [done|].
    intros f' (f & -> & Hf)%list_elem_of_fmap.
    destruct (moveFinger_sameButPosition (gameAreaDimensions w) touches f) as (-> & _).
    by apply Hw.
  - intros f. rewrite select_fingers, select_colors. apply Hw.
  - intros f Hf. by apply elem_of_nil in Hf.
  - destruct (fire rnd w) as [[o w']|] eqn:Hfire; [|done].
    intros f. rewrite (fire_fingers rnd w o w' Hfire). intros Hf.
    apply (fire_colors_keep rnd w o w' _ Hfire). by apply Hw.
  - unfold elapse. by destruct (forallb _ _).
Qed.

Lemma contacts_entries_aux rnd es f :
  f ∈ fingers (run rnd es initialWorld) →
  ∃ c, fingerColors (run rnd es initialWorld) !! Finger.id f = Some c
       ∧ backgroundColor (run rnd es initialWorld) (Finger.id f) = c.
Proof.
  intros Hf.
  assert (Hinv : hasEntries (run rnd es initialWorld)).
  { apply run_invariant_all; [intros e v; apply handle_hasEntries|].
    intros g Hg. by apply elem_of_nil in Hg. }
  destruct (Hinv f Hf) as [c Hc]. exists c. split; [done|].
  pose proof (colours_in_palette_aux rnd es (Finger.id f) c Hc) as Hpal.
  unfold backgroundColor. rewrite Hc. case_bool_decide as He; [|done].
  subst c. unfold palette in Hpal.
  repeat (apply elem_of_cons in Hpal as [Hpal|Hpal]; [discriminate|]).
  by apply elem_of_nil in Hpal.
Qed.

(** X9: in every reachable state every contact of the registry has an entry
    in the colour map, so the fallback colour of the render function is never
    used for a contact that is drawn: its background is the stored colour. *)
Theorem contacts_have_colour_entries (Math_random : nat → Q) (es : list Event) :
  let w := run Math_random es initialWorld in
  ∀ f, f ∈ fingers w →
    ∃ c, fingerColors w !! Finger.id f = Some c ∧ backgroundColor w (Finger.id f) = c.
Proof. intros w f. apply contacts_entries_aux. Qed.

Lemma contacts_have_colour_entries_witness :
  ∃ c, fingerColors twoFingerWorld !! fingerIdOf touchA = Some c
       ∧ backgroundColor twoFingerWorld (fingerIdOf touchA) = c.
Proof.
  apply (contacts_have_colour_entries halfRandom
           [Measure 0 0 400 800; TouchStart [touchA; touchB]] (newFinger touchA)).
  vm_compute. by left.
Defined.

(** ** What is drawn *)




Lemma border_default w k c :
  fingerColors w !! k = Some c → c = idleColor ∨ c = highlightColor →
  getBorderColor w k = "white" ∧ getBorderWidth w k = 4.
Proof.
  intros Hk Hc. unfold getBorderColor, getBorderWidth. rewrite Hk.
  destruct Hc as [->| ->]; by rewrite !bool_decide_eq_false_2 by (by intros [=]).
Qed.

Lemma border_accent w k c :
  fingerColors w !! k = Some c → c = winnerColor ∨ c = winnerBlinkColor →
  getBorderColor w k = "#ffcc00" ∧ getBorderWidth w k = 6.
Proof.
  intros Hk Hc. unfold getBorderColor, getBorderWidth. rewrite Hk.
  destruct Hc as [->| ->].
  - by rewrite bool_decide_eq_true_2.
  - rewrite (bool_decide_eq_true_2 (_ = Some winnerBlinkColor)) by done.
    by rewrite orb_true_r.
Qed.

Lemma snapshot_index_of_id (fs : list Finger.t) i j f g :
  NoDup (map Finger.id fs) → fs !! i = Some f → fs !! j = Some g →
  Finger.id f = Finger.id g → i = j.
Proof.
  intros Hnd Hi Hj Hid. apply (NoDup_lookup (map Finger.id fs) i j (Finger.id f)); [done|..].
  - by rewrite list_lookup_fmap, Hi.
  - by rewrite list_lookup_fmap, Hj, Hid.
Qed.

Lemma blinkColors_lookup rnd w winner j i f :
  NoDup (map Finger.id (snapshotOf w)) →
  snapshotOf w !! drawOf rnd w = Some winner → snapshotOf w !! i = Some f →
  ∃ c, blinkColors rnd w winner j !! Finger.id f = Some c
       ∧ if (i =? drawOf rnd w)%nat then c = winnerColor ∨ c = winnerBlinkColor
         else c = idleColor.
Proof.
  intros Hnd Hwin Hi. destruct (Nat.eqb_spec i (drawOf rnd w)) as [->|Hne].
  - assert (f = winner) as -> by congruence.
    destruct j as [|j].
    + exists winnerColor. split; [|by left]. cbn [blinkColors]. unfold wonColors.
      rewrite (merged_lookup _ _ _ _ (drawOf rnd w) winner) by done.
      by rewrite Nat.eqb_refl.
    + exists (blinkColorAt (S j)). split; [apply blinkColors_winner|].
      unfold blinkColorAt. destruct (_ =? _)%nat; auto.
  - exists idleColor. split; [|done]. rewrite blinkColors_other.
    + unfold wonColors. rewrite (merged_lookup _ _ _ _ i f) by done.
      by rewrite (proj2 (Nat.eqb_neq _ _) Hne).
    + intros Hid. apply Hne. by apply (snapshot_index_of_id (snapshotOf w) i _ f winner).
Qed.

(** X11: in a session started from an idle screen, after every tick of the
    cycling phase every snapshot contact is drawn with the white border; from
    the outcome on, after each of the following callbacks (the outcome, the
    six blinks, the end of the session) the winner is drawn with the accent
    border of width 6 and every other snapshot contact with the white border
    of width 4. *)
Theorem borders_through_session (Math_random : nat → Q) (w : World) :
  timers w = [] → selecting w = false → snapshotOf w ≠ [] →
  NoDup (map Finger.id (snapshotOf w)) →
  (0 <= Math_random (randomCalls w))%Q → (Math_random (randomCalls w) < 1)%Q →
  let K := length (snapshotOf w) in
  let randomIndex := randomIndexOf (Math_random (randomCalls w)) K in
  (∀ j, 1 ≤ j ≤ K * 3 →
     ∃ os wj, fires Math_random j (selectRandomFinger w) = Some (os, wj)
       ∧ ∀ f, f ∈ snapshotOf w →
           getBorderColor wj (Finger.id f) = "white"
           ∧ getBorderWidth wj (Finger.id f) = 4)
  ∧ (∀ n, K * 3 + 1 ≤ n ≤ K * 3 + 8 →
     ∃ os wn, fires Math_random n (selectRandomFinger w) = Some (os, wn)
       ∧ ∀ i f, snapshotOf w !! i = Some f →
           if (i =? randomIndex)%nat
           then getBorderColor wn (Finger.id f) = "#ffcc00"
                ∧ getBorderWidth wn (Finger.id f) = 6
           else getBorderColor wn (Finger.id f) = "white"
                ∧ getBorderWidth wn (Finger.id f) = 4).
Proof.
  intros Ht Hs Hk Hnd H0 H1 K randomIndex.
  destruct (draw_winner Math_random w Hk H0 H1) as (Hlt & winner & Hwin).
  change (K * 3) with (cyclesOf w). split.
  - intros j [Hj1 Hj3]. eexists _, (sessionWorld Math_random w winner j).
    split; [apply session_from_pick; (done || lia)|].
    intros f (i & Hi)%list_elem_of_lookup.
    unfold sessionWorld. rewrite (proj2 (Nat.leb_le _ _) Hj3).
    destruct j as [|j]; [lia|].
    apply (border_default (cycling w (S j)) _ _ (cycleColors_lookup w j i f Hnd Hi)).
    destruct (_ =? _)%nat; auto.
  - intros n [Hn1 Hn8]. eexists _, (sessionWorld Math_random w winner n).
    split; [apply session_from_pick; (done || lia)|].
    intros i f Hi.
    assert (Hcol : ∃ j, fingerColors (sessionWorld Math_random w winner n)
                        = blinkColors Math_random w winner j).
    { unfold sessionWorld. nat_cases; eauto. }
    destruct Hcol as [j Hcol].
    destruct (blinkColors_lookup Math_random w winner j i f Hnd Hwin Hi) as (c & Hc & Hcase).
    rewrite <- Hcol in Hc. change randomIndex with (drawOf Math_random w).
    destruct (i =? drawOf Math_random w)%nat.
    + by apply (border_accent _ _ c).
    + apply (border_default _ _ c); auto.
Qed.

Lemma borders_through_session_witness :
  ∃ os wn, fires halfRandom 8 (selectRandomFinger twoFingerWorld) = Some (os, wn)
    ∧ getBorderColor wn (fingerIdOf touchB) = "#ffcc00"
    ∧ getBorderColor wn (fingerIdOf touchA) = "white".
Proof.
  assert (Hnd : NoDup (map Finger.id (snapshotOf twoFingerWorld))).
  { apply (bool_decide_unpack _). vm_compute. exact I. }
  destruct (borders_through_session halfRandom twoFingerWorld eq_refl eq_refl
              ltac:(by vm_compute) Hnd ltac:(by vm_compute) ltac:(by vm_compute))
    as [_ Hafter].
  destruct (Hafter 8 ltac:(vm_compute; lia)) as (os & wn & Hrun & Hborder).
  exists os, wn. split; [exact Hrun|]. split.
  - apply (Hborder 1 (newFinger touchB) eq_refl).
  - apply (Hborder 0 (newFinger touchA) eq_refl).
Defined.

(** ** The controls *)

(** X12: the Pick Finger button is disabled exactly in the states in which
    its handler would do nothing; when it is enabled, pressing it sets the
    selecting flag, which disables it.  The disabled style follows the
    registry only: every button styled as disabled is disabled, but during a
    session the button is disabled without being styled so. *)
Theorem pick_button_matches_guard (w : World) :
  (pickDisabled w = true ↔ selectRandomFinger w = w)
  ∧ (pickDisabled w = false → pickDisabled (selectRandomFinger w) = true)
  ∧ (pickStyledDisabled w = true → pickDisabled w = true)
  ∧ (selecting w = true → activeOf (fingers w) ≠ [] →
     pickDisabled w = true ∧ pickStyledDisabled w = false).
Proof.
  assert (Hstart : pickDisabled w = false → selecting (selectRandomFinger w) = true).
  { unfold pickDisabled, selectRandomFinger. intros ->. simpl.
    by rewrite foldl_perform_fields. }
  split; [|split; [|split]].
  - split.
    + unfold pickDisabled, selectRandomFinger. by intros ->.
    + intros Hsame. destruct (pickDisabled w) eqn:Hd; [done|].
      pose proof (Hstart eq_refl) as Hset. rewrite Hsame in Hset.
      unfold pickDisabled in Hd. by rewrite Hset, orb_true_r in Hd.
  - intros Hd. unfold pickDisabled. by rewrite (Hstart Hd), orb_true_r.
  - unfold pickDisabled, pickStyledDisabled. by intros ->.
  - intros Hsel Hact. unfold pickDisabled, pickStyledDisabled. rewrite Hsel, orb_true_r.
    split; [done|]. destruct (activeOf (fingers w)); [done|]. done.
Qed.

Lemma pick_button_matches_guard_witness :
  pickDisabled twoFingerWorld = false
  ∧ pickDisabled (selectRandomFinger twoFingerWorld) = true
  ∧ pickStyledDisabled (selectRandomFinger twoFingerWorld) = false.
Proof.
  split; [reflexivity|]. split.
  - apply (pick_button_matches_guard twoFingerWorld). reflexivity.
  - apply (pick_button_matches_guard (selectRandomFinger twoFingerWorld)).
    + reflexivity.
    + by vm_compute.
Defined.

(** ** The move handler *)

Lemma moveFinger_idem area touches f :
  moveFinger area touches (moveFinger area touches f) = moveFinger area touches f.
Proof.
  unfold moveFinger at 2 3.
  destruct (findTouch touches (Finger.id f)) as [t|] eqn:Hfind.
  - destruct (isTouchInGameArea area (Touch.pageX t) (Touch.pageY t)) eqn:Hin.
    + unfold moveFinger. cbn [Finger.with_xy Finger.id]. by rewrite Hfind, Hin.
    + unfold moveFinger. by rewrite Hfind, Hin.
  - unfold moveFinger. by rewrite Hfind.
Qed.

(** X13: a move event is idempotent: delivering the same touches again
    changes nothing more; it keeps the number, the order and the identifiers
    of the contacts, and a move none of whose touches carries the identifier
    of a contact leaves the state as it was. *)
Theorem move_idempotent (w : World) (touches : list Touch.t) :
  let w' := onPanResponderMove touches w in
  onPanResponderMove touches w' = w'
  ∧ map Finger.id (fingers w') = map Finger.id (fingers w)
  ∧ ((∀ t f, t ∈ touches → f ∈ fingers w → fingerIdOf t ≠ Finger.id f) → w' = w).
Proof.
  intros w'. split; [|split].
  - unfold w', onPanResponderMove. destruct (selecting w) eqn:Hsel; simpl.
    + by rewrite Hsel.
    + rewrite Hsel. simpl. unfold set_fingers. simpl. f_equal.
      rewrite map_map. apply map_ext. intros f. apply moveFinger_idem.
  - apply move_ids.
  - intros Hno. unfold w', onPanResponderMove. destruct (selecting w); simpl; [done|].
    replace (map _ (fingers w)) with (fingers w); [by destruct w|].
    rewrite <- (map_id (fingers w)) at 1. apply map_ext_in.
    intros f Hf%list_elem_of_In. unfold moveFinger.
    destruct (findTouch touches (Finger.id f)) as [t|] eqn:Hfind; [|done].
    apply findTouch_Some in Hfind as [Ht Hid]. by destruct (Hno t f).
Qed.

Lemma move_idempotent_witness :
  onPanResponderMove [Touch.mk 7 10 10] twoFingerWorld = twoFingerWorld.
Proof.
  apply (move_idempotent twoFingerWorld [Touch.mk 7 10 10]).
  intros t f Ht Hf. apply list_elem_of_singleton in Ht. subst t.
  vm_compute in Hf.
  apply elem_of_cons in Hf as [->|Hf]; [by vm_compute|].
  apply list_elem_of_singleton in Hf. subst f. by vm_compute.
Defined.

(** ** The recolouring loop *)

Lemma forEachColor_out_of_range hot cur fs : ∀ index acc k c,
  index + length fs ≤ cur →
  forEachColor hot cur index fs acc !! k = Some c → c = idleColor ∨ acc !! k = Some c.
Proof.
  induction fs as [|f fs IH]; intros index acc k c Hcur Hk; simpl in *; [auto|].
  apply IH in Hk; [|lia]. destruct Hk as [?|Hk]; [auto|].
  apply lookup_insert_Some in Hk as [[_ <-]|[_ Hk]]; [|auto].
  left. by rewrite (proj2 (Nat.eqb_neq index cur)) by lia.
Qed.

Lemma forEachColor_dom hot cur fs : ∀ index (acc : gmap string string),
  dom (forEachColor hot cur index fs acc)
  = dom acc ∪ list_to_set (map Finger.id fs).
Proof.
  induction fs as [|f fs IH]; intros index acc; simpl.
  - by rewrite union_empty_r_L.
  - rewrite IH, dom_insert_L. cbn [list_to_set].
    by rewrite (comm_L (∪) {[Finger.id f]} (dom acc)), (assoc_L (∪)).
Qed.

(** X14: [updateFingerColors] writes the entries of the snapshot contacts and
    nothing else: the keys of the colour map become the old keys plus the
    snapshot identifiers, entries of other identifiers keep their colour, no
    other field of the state changes, doing it twice equals doing it once;
    with an index beyond the snapshot every snapshot contact is set to the
    idle colour. *)
Theorem updateFingerColors_frame (w : World) (activeFingers : list Finger.t) (currentIndex : nat) :
  let w' := updateFingerColors activeFingers currentIndex w in
  dom (fingerColors w') = dom (fingerColors w) ∪ list_to_set (map Finger.id activeFingers)
  ∧ (∀ k, k ∉ map Finger.id activeFingers → fingerColors w' !! k = fingerColors w !! k)
  ∧ w' = set_fingerColors (fingerColors w') w
  ∧ updateFingerColors activeFingers currentIndex w' = w'
  ∧ (length activeFingers ≤ currentIndex →
     ∀ f, f ∈ activeFingers → fingerColors w' !! Finger.id f = Some idleColor).
Proof.
  intros w'. unfold w', updateFingerColors, mergeColors. cbn [set_fingerColors fingerColors].
  split; [|split; [|split; [|split]]].
  - rewrite dom_union_L, forEachColor_dom, dom_empty_L, (left_id_L ∅ (∪)).
    apply (comm_L (∪)).
  - intros k Hk. by apply merged_other.
  - done.
  - unfold set_fingerColors. cbn. f_equal.
    apply map_eq. intros k. rewrite !lookup_union.
    by destruct (forEachColor _ _ _ _ _ !! k), (fingerColors w !! k).
  - intros Hcur f Hf.
    destruct (forEachColor_writes highlightColor currentIndex activeFingers 0 ∅ f Hf)
      as [c Hc].
    apply lookup_union_Some_l.
    destruct (forEachColor_out_of_range highlightColor currentIndex activeFingers
                0 ∅ (Finger.id f) c Hcur Hc) as [->|Hempty]; [done|].
    by rewrite lookup_empty in Hempty.
Qed.

Lemma updateFingerColors_frame_witness :
  fingerColors (updateFingerColors (fingers twoFingerWorld) 5 twoFingerWorld)
    !! fingerIdOf touchA = Some idleColor.
Proof.
  destruct (updateFingerColors_frame twoFingerWorld (fingers twoFingerWorld) 5)
    as (_ & _ & _ & _ & Hidle).
  assert (Hlen : length (fingers twoFingerWorld) ≤ 5) by (by apply Nat.leb_le).

  apply (Hidle Hlen (newFinger touchA)).
  change (fingers twoFingerWorld) with [newFinger touchA; newFinger touchB]. by left.
Defined.

(** ** Timers without Reset *)

Lemma run_sessionShape rnd es :
  Forall (λ e, e ≠ PressReset) es → sessionShape (run rnd es initialWorld).
Proof.
  intros Hes.
  apply (run_invariant rnd sessionShape (λ e, e ≠ PressReset)); [|done|done].
  intros e w He Hw. by apply handle_sessionShape.
Qed.

(** X15: as long as Reset is not pressed, at most two timers are pending in
    any reachable state, at most one of them a cycling timer; timers are
    pending only while the selecting flag is set, so a Pick Finger that starts
    a session always finds the timer table empty and sessions never
    overlap. *)
Theorem sessions_never_overlap_without_reset (Math_random : nat → Q) (es : list Event) :
  Forall (λ e, e ≠ PressReset) es →
  let w := run Math_random es initialWorld in
  length (timers w) ≤ 2
  ∧ (timers w ≠ [] → selecting w = true)
  ∧ (selectRandomFinger w ≠ w → timers w = [])
  ∧ length (filter (λ t, isCycleTick t = true) (timers w)) ≤ 1.
Proof.
  intros Hes w. pose proof (run_sessionShape Math_random es Hes) as Hshape.
  fold w in Hshape.
  assert (Hidle : selecting w = false → timers w = []) by (by apply sessionShape_idle).
  split; [|split; [|split]].
  - unfold sessionShape in Hshape.
    destruct (timers w) as [|t [|u [|v l]]]; [simpl; lia..|done].
  - intros Hne. destruct (selecting w); [done|]. by destruct Hne; apply Hidle.
  - intros Hstart. apply Hidle. destruct (selecting w) eqn:Hsel; [|done].
    destruct Hstart. apply select_noop. by right.
  - unfold sessionShape in Hshape.
    destruct (timers w) as [|t [|u [|v l]]]; [simpl; lia| | |by destruct Hshape].
    + rewrite filter_cons. case_decide; simpl; lia.
    + assert (Hu : isCycleTick u = false).
      { unfold isCycleTick.
        by destruct Hshape as (_ & _ & _ & [(fs & c & ms & _ & _ & ->)
                                           |(f & j & _ & _ & -> & _)]). }
      rewrite filter_cons, (filter_cons_False _ u) by (by rewrite Hu).
      case_decide; simpl; lia.
Qed.

Lemma sessions_never_overlap_without_reset_witness :
  length (timers (run halfRandom
                    [Measure 0 0 400 800; TouchStart [touchA]; PressPick; PressPick;
                     TimerFires; PressPick]
                    initialWorld)) ≤ 2.
Proof.
  apply (sessions_never_overlap_without_reset halfRandom
           [Measure 0 0 400 800; TouchStart [touchA]; PressPick; PressPick;
            TimerFires; PressPick]).
  repeat constructor; discriminate.
Defined.

(** ** Audio *)

(** X16: the two sounds are loaded in one try block, the tap sound first: the
    winner sound is loaded only if the tap sound is, a failure of either load
    logs exactly one error and a failure of the tap sound leaves both refs
    empty.  A play function replays its sound only when its ref is set; with
    an empty ref it does nothing and logs nothing, and a failing replay is
    logged without touching the refs.  The cleanup unloads exactly the sounds
    whose ref is set, the tap sound first, and nothing when it runs before
    the loading. *)
Theorem sounds_load_in_order (createAsync replayAsync : Asset → bool) :
  let s := loadSounds createAsync mountedSounds in
  (tapSoundRef s = Some TapMp3 ↔ createAsync TapMp3 = true)
  ∧ (winSoundRef s = Some WinnerMp3
     ↔ createAsync TapMp3 = true ∧ createAsync WinnerMp3 = true)
  ∧ (is_Some (winSoundRef s) → is_Some (tapSoundRef s))
  ∧ (createAsync TapMp3 = false → tapSoundRef s = None ∧ winSoundRef s = None)
  ∧ length (consoleErrors s)
    = (if createAsync TapMp3 && createAsync WinnerMp3 then 0 else 1)
  ∧ (fst (playTapSound replayAsync s) = true
     ↔ createAsync TapMp3 = true ∧ replayAsync TapMp3 = true)
  ∧ (fst (playWinnerSound replayAsync s) = true
     ↔ createAsync TapMp3 = true ∧ createAsync WinnerMp3 = true
       ∧ replayAsync WinnerMp3 = true)
  ∧ (∀ s', tapSoundRef s' = None → playTapSound replayAsync s' = (false, s'))
  ∧ (∀ s', winSoundRef s' = None → playWinnerSound replayAsync s' = (false, s'))
  ∧ (∀ s', tapSoundRef (snd (playTapSound replayAsync s')) = tapSoundRef s'
           ∧ winSoundRef (snd (playWinnerSound replayAsync s')) = winSoundRef s')
  ∧ unloaded (unloadSounds s)
    = (if createAsync TapMp3
       then TapMp3 :: (if createAsync WinnerMp3 then [WinnerMp3] else [])
       else [])
  ∧ unloaded (unloadSounds mountedSounds) = [].
Proof.
  intros s.
  assert (Hrefs : ∀ s', tapSoundRef (snd (playTapSound replayAsync s')) = tapSoundRef s'
                        ∧ winSoundRef (snd (playWinnerSound replayAsync s')) = winSoundRef s').
  { intros s'. unfold playTapSound, playWinnerSound.
    destruct (tapSoundRef s') as [a|] eqn:Ha, (winSoundRef s') as [b|] eqn:Hb;
      repeat case_match; done. }
  assert (Htap0 : ∀ s', tapSoundRef s' = None → playTapSound replayAsync s' = (false, s')).
  { intros s' Hs'. unfold playTapSound. by rewrite Hs'. }
  assert (Hwin0 : ∀ s', winSoundRef s' = None → playWinnerSound replayAsync s' = (false, s')).
  { intros s' Hs'. unfold playWinnerSound. by rewrite Hs'. }
  unfold s, loadSounds, playTapSound, playWinnerSound, unloadSounds, mountedSounds.
  destruct (createAsync TapMp3) eqn:Htap; destruct (createAsync WinnerMp3) eqn:Hwin;
    cbn [tapSoundRef winSoundRef consoleErrors unloaded option_list app length andb fst snd];
    destruct (replayAsync TapMp3), (replayAsync WinnerMp3);
    cbn [fst snd]; repeat split; intros; try done;
    try (destruct_and?; congruence); try (by eexists); try (split; congruence);
    first [by apply Htap0 | by apply Hwin0 | apply Hrefs].
Qed.

(** ** The shape and the place of the contacts *)

Lemma handle_asCreated rnd e w :
  Forall asCreated (fingers w) → Forall asCreated (fingers (handle rnd e w)).
Proof.
  intros Hw. destruct e as [touches|touches| | | | |px py wd ht| |ms]; simpl; try done.
  - destruct (selecting w) eqn:Hsel.
    + unfold onPanResponderGrant. by rewrite Hsel.
    + destruct (grant_fields w touches Hsel) as (-> & _).
      apply Forall_app. split.
      * apply Forall_forall. intros f [_ Hf]%list_elem_of_filter.
        rewrite Forall_forall in Hw. by apply Hw.
      * apply Forall_forall. intros f (t & -> & _)%list_elem_of_fmap. by exists t.
  - unfold onPanResponderMove. destruct (selecting w); simpl; [done|].
    rewrite Forall_fmap. eapply Forall_impl; [exact Hw|].
    intros f [t Hf]. simpl. unfold moveFinger.
    destruct (findTouch touches (Finger.id f)) as [u|]; [|by exists t].
    destruct (isTouchInGameArea _ _ _); [|by exists t].
    exists t. rewrite Hf at 1. done.
  - by rewrite select_fingers.
  - destruct (fire rnd w) as [[o w']|] eqn:Hfire; [|done].
    by rewrite (fire_fingers rnd w o w' Hfire).
  - unfold elapse. by destruct (forallb _ _).
Qed.

Lemma run_asCreated rnd es : Forall asCreated (fingers (run rnd es initialWorld)).
Proof.
  apply (run_invariant_all rnd (λ w, Forall asCreated (fingers w)));
    [intros e w; apply handle_asCreated | constructor].
Qed.

Lemma dotAnimationsOf_created f :
  asCreated f →
  dotAnimationsOf f
  = map (λ index, OpacityLoop (Finger.id f) index
                    [(1%Q, 600 + index * 100); ((2 # 10)%Q, 600 + index * 100)])
        (seq 0 8).
Proof. intros [t ->]. reflexivity. Qed.

(** X17: in every reachable state a contact is what the start handler
    created, moved: its identifier is the decimal form of a touch identifier,
    it is active and it carries 8 dots at distance 95.  So whenever the
    registry changes, the two animation effects start, for every contact, one
    rotation loop of 5000 and 8 opacity loops, the loop of dot i alternating
    between 1 and 0.2 with steps of 600 + 100 i, that is 9 animations per
    contact. *)
Theorem contacts_keep_their_shape (Math_random : nat → Q) (es : list Event) :
  let w := run Math_random es initialWorld in
  (∀ f, f ∈ fingers w →
     (∃ identifier : Z, Finger.id f = pretty identifier)
     ∧ Finger.active f = true
     ∧ length (Finger.dots f) = 8
     ∧ Forall (λ dot, Dot.distance dot = 95%Z) (Finger.dots f)
     ∧ dotAnimationsOf f
       = map (λ index, OpacityLoop (Finger.id f) index
                         [(1%Q, 600 + index * 100); ((2 # 10)%Q, 600 + index * 100)])
             (seq 0 8))
  ∧ length (dotAnimations (fingers w)) = 8 * length (fingers w)
  ∧ rotationAnimations (fingers w)
    = map (λ f, RotationLoop (Finger.id f) 1%Q 5000) (fingers w).
Proof.
  intros w. pose proof (run_asCreated Math_random es) as Hall. fold w in Hall.
  split; [|split].
  - intros f Hf. rewrite Forall_forall in Hall. pose proof (Hall f Hf) as Hc.
    split; [|split; [|split; [|split]]]; [..|by apply dotAnimationsOf_created];
      destruct Hc as [t ->]; [by exists (Touch.identifier t) | done | done|].
    cbn. repeat constructor.
  - unfold dotAnimations. induction Hall as [|f l Hf Hl IH]; [done|].
    cbn [map concat length]. rewrite length_app, IH, (dotAnimationsOf_created f Hf).
    rewrite length_map, length_seq. lia.
  - unfold rotationAnimations. induction Hall as [|f l Hf Hl IH]; [done|].
    cbn [map concat]. rewrite IH. by destruct Hf as [t ->].
Qed.

Lemma fire_area rnd w o w' :
  fire rnd w = Some (o, w') → gameAreaDimensions w' = gameAreaDimensions w.
Proof.
  intros (t & _ & ->)%fire_inv. by rewrite runCallback_area, rearm_area.
Qed.

Lemma handle_positions rnd area e w :
  ¬ isMeasure e →
  gameAreaDimensions w = area
  ∧ Forall (λ f, isTouchInGameArea area (Finger.x f) (Finger.y f) = true) (fingers w) →
  gameAreaDimensions (handle rnd e w) = area
  ∧ Forall (λ f, isTouchInGameArea area (Finger.x f) (Finger.y f) = true)
           (fingers (handle rnd e w)).
Proof.
  intros He [Harea Hw]. destruct e as [touches|touches| | | | |px py wd ht| |ms];
    simpl; try done.
  - destruct (selecting w) eqn:Hsel.
    + unfold onPanResponderGrant. by rewrite Hsel.
    + rewrite grant_area. split; [done|].
      destruct (grant_fields w touches Hsel) as (-> & _).
      apply Forall_app. split.
      * apply Forall_forall. intros f [_ Hf]%list_elem_of_filter.
        rewrite Forall_forall in Hw. by apply Hw.
      * apply Forall_forall.
        intros f (t & -> & [Hb _]%elem_of_validTouchesOf)%list_elem_of_fmap.
        unfold inBounds in Hb. by rewrite Harea in Hb.
  - unfold onPanResponderMove. destruct (selecting w); simpl; [done|]. split; [done|].
    rewrite Forall_fmap. eapply Forall_impl; [exact Hw|].
    intros f Hf. simpl. unfold moveFinger.
    destruct (findTouch touches (Finger.id f)) as [u|]; [|done].
    rewrite Harea. by destruct (isTouchInGameArea area (Touch.pageX u) (Touch.pageY u)) eqn:Hu.
  - by rewrite select_fingers, select_area.
  - destruct (fire rnd w) as [[o w']|] eqn:Hfire; [|done].
    by rewrite (fire_fingers rnd w o w' Hfire), (fire_area rnd w o w' Hfire).
  - unfold elapse. by destruct (forallb _ _).
Qed.

(** X18: as long as the game area is not measured again, every contact of
    the registry lies on the play surface: starting from an empty registry,
    after any events other than a new measurement the position of every
    contact passes the bounds test, so no contact is ever placed or dragged
    into the strip reserved for the buttons. *)
Theorem contacts_stay_on_play_surface (Math_random : nat → Q) (w0 : World)
    (es : list Event) (f : Finger.t) :
  fingers w0 = [] → Forall (λ e, ¬ isMeasure e) es →
  f ∈ fingers (run Math_random es w0) →
  isTouchInGameArea (gameAreaDimensions w0) (Finger.x f) (Finger.y f) = true
  ∧ (Finger.y f < Area.bottom (gameAreaDimensions w0) - 70)%Z.
Proof.
  intros Hempty Hes Hf.
  assert (Hinv : gameAreaDimensions (run Math_random es w0) = gameAreaDimensions w0
                 ∧ Forall (λ f, isTouchInGameArea (gameAreaDimensions w0)
                                  (Finger.x f) (Finger.y f) = true)
                          (fingers (run Math_random es w0))).
  { apply (run_invariant Math_random
             (λ w, gameAreaDimensions w = gameAreaDimensions w0
                   ∧ Forall (λ f, isTouchInGameArea (gameAreaDimensions w0)
                                    (Finger.x f) (Finger.y f) = true) (fingers w))
             (λ e, ¬ isMeasure e)); [|done|].
    - intros e w He Hw. by apply handle_positions.
    - rewrite Hempty. split; [done | constructor]. }
  destruct Hinv as [_ Hall]. rewrite Forall_forall in Hall.
  pose proof (Hall f Hf) as Hin. split; [done|].
  unfold isTouchInGameArea in Hin. rewrite !andb_true_iff in Hin. lia.
Qed.

Lemma contacts_stay_on_play_surface_witness :
  (Finger.y (Finger.with_xy (newFinger touchA) 150 729) < 800 - 70)%Z.
Proof.
  apply (contacts_stay_on_play_surface halfRandom measuredWorld
           [TouchStart [touchA]; TouchMove [Touch.mk 0 150 729];
            TouchMove [Touch.mk 0 150 760]; PressPick; TimerFires]
           (Finger.with_xy (newFinger touchA) 150 729)).
  - reflexivity.
  - repeat constructor; by intros [].
  - vm_compute. by left.
Defined.

(** ** The draw, once more *)


